(** * terminfo: the source parser, the use resolver and the binary reader

    A shallow embedding of [parse.go] (Parse, addCap, findTerminfo,
    resolveUses) and of the compiled-format reader (header, reader.read and
    its section readers), with the properties of the specification stated
    and settled against them.

    Conventions.
    - A Go [string] / [[]byte] is a [string] (a sequence of 8-bit [ascii]).
    - A Go [int] is a [Z] (64-bit; none of the counters below can reach
      2^63 on an input that fits in memory).  A Go [int16] is a [Z] kept in
      [-32768, 32767] by [wrap16].
    - A Go [map[K]V] is a [gmap K V]; a nil pointer is [None].
    - A run that panics yields [Panic]; a run whose recursion does not end
      within the given fuel yields [OutOfFuel]. *)

From Stdlib Require Import ZArith NArith Ascii String List Lia.
From stdpp Require Import gmap strings list.

Open Scope Z_scope.

(** ** Outcomes of a run *)

Inductive outcome (A : Type) : Type :=
| Ok (a : A)
| Panic
| OutOfFuel.

Arguments Ok {A} a.
Arguments Panic {A}.
Arguments OutOfFuel {A}.

#[global] Instance outcome_ret : MRet outcome := λ A a, Ok a.

#[global] Instance outcome_bind : MBind outcome := λ A B k m,
  match m with
  | Ok a => k a
  | Panic => Panic
  | OutOfFuel => OutOfFuel
  end.

(** [for _, x := range l { st = body st x }], stopping at the first run
    that does not return. *)
Fixpoint forEach {A S : Type} (body : S → A → outcome S) (st : S) (l : list A)
  : outcome S :=
  match l with
  | [] => Ok st
  | x :: l' => st' ← body st x; forEach body st' l'
  end.

(** ** The Go library functions the parser calls *)

Module Go.

Definition byteN (c : ascii) : N := N_of_ascii c.
Definition byteZ (c : ascii) : Z := Z.of_N (N_of_ascii c).

(** [strings.Split(s, sep)] for a one-byte separator: never empty. *)
Fixpoint Split (sep : ascii) (s : string) : list string :=
  match s with
  | "" => [""]
  | String c r =>
      if decide (c = sep) then "" :: Split sep r
      else match Split sep r with
           | h :: t => String c h :: t
           | [] => [String c ""]
           end
  end.

(** [strings.HasPrefix(s, p)] for a one-byte prefix. *)
Definition HasPrefix1 (s : string) (p : ascii) : bool :=
  match s with
  | String c _ => bool_decide (c = p)
  | "" => false
  end.

(** [strings.HasPrefix(s, p)]. *)
Fixpoint HasPrefix (s p : string) : bool :=
  match p, s with
  | "", _ => true
  | String a p', String b s' => bool_decide (a = b) && HasPrefix s' p'
  | String _ _, "" => false
  end.

(** [unicode.IsSpace(rune(b))] for one byte [b]: the Latin-1 white space. *)
Definition IsSpace (c : ascii) : bool :=
  let n := byteN c in
  bool_decide (n = 9 ∨ n = 10 ∨ n = 11 ∨ n = 12 ∨ n = 13 ∨ n = 32
               ∨ n = 133 ∨ n = 160)%N.

(** The ASCII white space of [strings.TrimSpace]'s fast path. *)
Definition asciiSpace (c : ascii) : bool :=
  let n := byteN c in
  bool_decide (n = 9 ∨ n = 10 ∨ n = 11 ∨ n = 12 ∨ n = 13 ∨ n = 32)%N.

(** The UTF-8 encodings of the white space runes above U+007F:
    U+0085, U+00A0, U+1680, U+2000..U+200A, U+2028, U+2029, U+202F,
    U+205F, U+3000. *)
Definition spaceRunes : list (list N) :=
  [ [194; 133]; [194; 160]; [225; 154; 128];
    [226; 128; 128]; [226; 128; 129]; [226; 128; 130]; [226; 128; 131];
    [226; 128; 132]; [226; 128; 133]; [226; 128; 134]; [226; 128; 135];
    [226; 128; 136]; [226; 128; 137]; [226; 128; 138];
    [226; 128; 168]; [226; 128; 169]; [226; 128; 175];
    [226; 129; 159]; [227; 128; 128] ]%N.

Fixpoint stripBytes (p : list N) (s : string) : option string :=
  match p, s with
  | [], _ => Some s
  | n :: p', String c s' => if decide (byteN c = n) then stripBytes p' s' else None
  | _ :: _, "" => None
  end.

(** One white space rune off the front of [s], if [s] starts with one. *)
Definition stripSpace (runes : list (list N)) (s : string) : option string :=
  match s with
  | "" => None
  | String c s' =>
      if asciiSpace c then Some s'
      else list_find (λ r, is_Some (stripBytes r s)) runes
             ≫= λ '(_, r), stripBytes r s
  end.

Fixpoint trimFuel (runes : list (list N)) (fuel : nat) (s : string) : string :=
  match fuel with
  | O => s
  | S f => match stripSpace runes s with
           | Some s' => trimFuel runes f s'
           | None => s
           end
  end.

Definition TrimLeft (s : string) : string :=
  trimFuel spaceRunes (String.length s) s.

(** Trimming on the right reads the runes backwards. *)
Definition TrimRight (s : string) : string :=
  let r := String.rev s in
  String.rev (trimFuel (map (@rev N) spaceRunes) (String.length r) r).

(** [strings.TrimSpace(s)]. *)
Definition TrimSpace (s : string) : string := TrimRight (TrimLeft s).

(** [strconv.ParseUint(s, base, 32)] for [base] 10 or 16: the value and the
    error, if any. *)
Inductive NumError := ErrSyntax | ErrRange.

Definition lower (c : N) : N := N.lor c 32.

Definition digitOf (c : ascii) : option Z :=
  let n := byteN c in
  if bool_decide (48 ≤ n ≤ 57)%N then Some (Z.of_N n - 48)
  else if bool_decide (97 ≤ lower n ≤ 122)%N then Some (Z.of_N (lower n) - 97 + 10)
  else None.

Definition maxUint64 : Z := 2 ^ 64 - 1.
Definition maxVal32 : Z := 2 ^ 32 - 1.

Fixpoint parseDigits (base : Z) (n : Z) (s : string) : Z * option NumError :=
  match s with
  | "" => (n, None)
  | String c s' =>
      match digitOf c with
      | None => (0, Some ErrSyntax)
      | Some d =>
          if bool_decide (base ≤ d) then (0, Some ErrSyntax)
          else if bool_decide (maxUint64 / base + 1 ≤ n) then (maxVal32, Some ErrRange)
          else
            let n' := (n * base) `mod` 2 ^ 64 in
            let n1 := (n' + d) `mod` 2 ^ 64 in
            if bool_decide (n1 < n' ∨ maxVal32 < n1) then (maxVal32, Some ErrRange)
            else parseDigits base n1 s'
      end
  end.

Definition ParseUint (s : string) (base : Z) : Z * option NumError :=
  match s with
  | "" => (0, Some ErrSyntax)
  | _ => parseDigits base 0 s
  end.

End Go.


(** ** The capability model *)

(** The declaration of [type Terminfo] is not among the sources; the fields
    are the ones [Parse] initialises and [resolveUses] reads, with the types
    of the maps [Parse] makes for them. *)
Record Terminfo : Type := mkTerminfo {
  Names : list string;
  Bools : gmap Z bool;
  Nums : gmap Z Z;
  Strings : gmap Z string;
  BoolsM : gmap Z bool;
  NumsM : gmap Z bool;
  StringsM : gmap Z bool;
  ExtBools : gmap Z bool;
  ExtNums : gmap Z Z;
  ExtStrings : gmap Z string;
  ExtBoolNames : gmap Z string;
  ExtNumNames : gmap Z string;
  ExtStringNames : gmap Z string;
  Uses : list string;
}.

(** [&Terminfo{Names: names, Bools: make(...), ...}]: every map empty, [Uses]
    nil. *)
Definition newTerminfo (names : list string) : Terminfo :=
  mkTerminfo names ∅ ∅ ∅ ∅ ∅ ∅ ∅ ∅ ∅ ∅ ∅ ∅ [].

Definition set_Bools (m : gmap Z bool) (t : Terminfo) : Terminfo :=
  mkTerminfo (Names t) m (Nums t) (Strings t) (BoolsM t) (NumsM t) (StringsM t)
    (ExtBools t) (ExtNums t) (ExtStrings t)
    (ExtBoolNames t) (ExtNumNames t) (ExtStringNames t) (Uses t).

Definition set_Nums (m : gmap Z Z) (t : Terminfo) : Terminfo :=
  mkTerminfo (Names t) (Bools t) m (Strings t) (BoolsM t) (NumsM t) (StringsM t)
    (ExtBools t) (ExtNums t) (ExtStrings t)
    (ExtBoolNames t) (ExtNumNames t) (ExtStringNames t) (Uses t).

Definition set_Strings (m : gmap Z string) (t : Terminfo) : Terminfo :=
  mkTerminfo (Names t) (Bools t) (Nums t) m (BoolsM t) (NumsM t) (StringsM t)
    (ExtBools t) (ExtNums t) (ExtStrings t)
    (ExtBoolNames t) (ExtNumNames t) (ExtStringNames t) (Uses t).

Definition set_ExtBools (m : gmap Z bool) (t : Terminfo) : Terminfo :=
  mkTerminfo (Names t) (Bools t) (Nums t) (Strings t) (BoolsM t) (NumsM t)
    (StringsM t) m (ExtNums t) (ExtStrings t)
    (ExtBoolNames t) (ExtNumNames t) (ExtStringNames t) (Uses t).

Definition set_ExtNums (m : gmap Z Z) (t : Terminfo) : Terminfo :=
  mkTerminfo (Names t) (Bools t) (Nums t) (Strings t) (BoolsM t) (NumsM t)
    (StringsM t) (ExtBools t) m (ExtStrings t)
    (ExtBoolNames t) (ExtNumNames t) (ExtStringNames t) (Uses t).

Definition set_ExtStrings (m : gmap Z string) (t : Terminfo) : Terminfo :=
  mkTerminfo (Names t) (Bools t) (Nums t) (Strings t) (BoolsM t) (NumsM t)
    (StringsM t) (ExtBools t) (ExtNums t) m
    (ExtBoolNames t) (ExtNumNames t) (ExtStringNames t) (Uses t).

Definition set_ExtBoolNames (m : gmap Z string) (t : Terminfo) : Terminfo :=
  mkTerminfo (Names t) (Bools t) (Nums t) (Strings t) (BoolsM t) (NumsM t)
    (StringsM t) (ExtBools t) (ExtNums t) (ExtStrings t)
    m (ExtNumNames t) (ExtStringNames t) (Uses t).

Definition set_ExtNumNames (m : gmap Z string) (t : Terminfo) : Terminfo :=
  mkTerminfo (Names t) (Bools t) (Nums t) (Strings t) (BoolsM t) (NumsM t)
    (StringsM t) (ExtBools t) (ExtNums t) (ExtStrings t)
    (ExtBoolNames t) m (ExtStringNames t) (Uses t).

Definition set_ExtStringNames (m : gmap Z string) (t : Terminfo) : Terminfo :=
  mkTerminfo (Names t) (Bools t) (Nums t) (Strings t) (BoolsM t) (NumsM t)
    (StringsM t) (ExtBools t) (ExtNums t) (ExtStrings t)
    (ExtBoolNames t) (ExtNumNames t) m (Uses t).

Definition set_Uses (l : list string) (t : Terminfo) : Terminfo :=
  mkTerminfo (Names t) (Bools t) (Nums t) (Strings t) (BoolsM t) (NumsM t)
    (StringsM t) (ExtBools t) (ExtNums t) (ExtStrings t)
    (ExtBoolNames t) (ExtNumNames t) (ExtStringNames t) l.

(** The catalog of standard capability names ([boolNameCaps],
    [numNameCaps], [stringNameCaps]: package variables of type
    [map[string]int] declared outside the sources).  The parser is
    parameterised by it. *)
Record Catalog : Type := mkCatalog {
  boolNameCaps : gmap string Z;
  numNameCaps : gmap string Z;
  stringNameCaps : gmap string Z;
}.

(** What [log.Printf] is called with. *)
Inductive Diag : Type :=
| InvalidNumber (value : string)          (* "Warn: invalid number: %q" *)
| ShouldntBeHere (name : string)          (* "Shouldn't be here: %s" *)
| UseNotFound (name use : string).        (* "Warn: %q uses %q, but %q is not found" *)

(** ** The source parser: [Parse]'s local state *)

Inductive EscState : Type := GROUND | INT | NONE | CTRL | ESC.

#[global] Instance EscState_eq_dec : EqDecision EscState.
Proof. solve_decision. Defined.

Record PState : Type := mkPState {
  tis : list Terminfo;
  ti : option Terminfo;          (* [*Terminfo], nil until the first entry *)
  capName : string;
  esc : EscState;
  buf : string;                  (* [bytes.Buffer] *)
  extBoolIdx : Z;
  extNumIdx : Z;
  extStringIdx : Z;
  extBoolNameCaps : gmap string Z;
  extNumNameCaps : gmap string Z;
  extStringNameCaps : gmap string Z;
  logs : list Diag;
}.

Definition initState : PState :=
  mkPState [] None "" GROUND "" 0 0 0 ∅ ∅ ∅ [].

Definition set_tis (l : list Terminfo) (s : PState) : PState :=
  mkPState l (ti s) (capName s) (esc s) (buf s)
    (extBoolIdx s) (extNumIdx s) (extStringIdx s)
    (extBoolNameCaps s) (extNumNameCaps s) (extStringNameCaps s) (logs s).

Definition set_ti (t : option Terminfo) (s : PState) : PState :=
  mkPState (tis s) t (capName s) (esc s) (buf s)
    (extBoolIdx s) (extNumIdx s) (extStringIdx s)
    (extBoolNameCaps s) (extNumNameCaps s) (extStringNameCaps s) (logs s).

Definition set_capName (n : string) (s : PState) : PState :=
  mkPState (tis s) (ti s) n (esc s) (buf s)
    (extBoolIdx s) (extNumIdx s) (extStringIdx s)
    (extBoolNameCaps s) (extNumNameCaps s) (extStringNameCaps s) (logs s).

Definition set_esc (e : EscState) (s : PState) : PState :=
  mkPState (tis s) (ti s) (capName s) e (buf s)
    (extBoolIdx s) (extNumIdx s) (extStringIdx s)
    (extBoolNameCaps s) (extNumNameCaps s) (extStringNameCaps s) (logs s).

Definition set_buf (b : string) (s : PState) : PState :=
  mkPState (tis s) (ti s) (capName s) (esc s) b
    (extBoolIdx s) (extNumIdx s) (extStringIdx s)
    (extBoolNameCaps s) (extNumNameCaps s) (extStringNameCaps s) (logs s).

(** [extBoolNameCaps[name] = extBoolIdx; ...; extBoolIdx++] *)
Definition newExtBool (name : string) (s : PState) : PState :=
  mkPState (tis s) (ti s) (capName s) (esc s) (buf s)
    (extBoolIdx s + 1) (extNumIdx s) (extStringIdx s)
    (<[name := extBoolIdx s]> (extBoolNameCaps s))
    (extNumNameCaps s) (extStringNameCaps s) (logs s).

Definition newExtNum (name : string) (s : PState) : PState :=
  mkPState (tis s) (ti s) (capName s) (esc s) (buf s)
    (extBoolIdx s) (extNumIdx s + 1) (extStringIdx s)
    (extBoolNameCaps s)
    (<[name := extNumIdx s]> (extNumNameCaps s)) (extStringNameCaps s) (logs s).

Definition newExtString (name : string) (s : PState) : PState :=
  mkPState (tis s) (ti s) (capName s) (esc s) (buf s)
    (extBoolIdx s) (extNumIdx s) (extStringIdx s + 1)
    (extBoolNameCaps s) (extNumNameCaps s)
    (<[name := extStringIdx s]> (extStringNameCaps s)) (logs s).

(** [log.Printf(...)] *)
Definition logf (d : Diag) (s : PState) : PState :=
  mkPState (tis s) (ti s) (capName s) (esc s) (buf s)
    (extBoolIdx s) (extNumIdx s) (extStringIdx s)
    (extBoolNameCaps s) (extNumNameCaps s) (extStringNameCaps s) (logs s ++ [d]).

(** [buf.WriteByte(c)] *)
Definition WriteByte (c : ascii) (s : PState) : PState :=
  set_buf (buf s +:+ String c "") s.

(** A write through the pointer [ti]: a nil [ti] panics. *)
Definition onTi (f : Terminfo → Terminfo) (s : PState) : outcome PState :=
  match ti s with
  | Some t => Ok (set_ti (Some (f t)) s)
  | None => Panic
  end.

(** ** The source parser: [addCap] and the character loop *)

Section Parser.

Variable cat : Catalog.

(** [case "bool"] of [addCap]. *)
Definition addCapBool (s : PState) : outcome PState :=
  let name := buf s in
  match boolNameCaps cat !! name with
  | Some cap => onTi (λ t, set_Bools (<[cap := true]> (Bools t)) t) s
  | None =>
      match extBoolNameCaps s !! name with
      | Some cap =>
          onTi (λ t, set_ExtBools (<[cap := true]> (ExtBools t))
                       (set_ExtBoolNames (<[cap := name]> (ExtBoolNames t)) t)) s
      | None =>
          let idx := extBoolIdx s in
          onTi (λ t, set_ExtBools (<[idx := true]> (ExtBools t))
                       (set_ExtBoolNames (<[idx := name]> (ExtBoolNames t)) t))
               (newExtBool name s)
      end
  end.

(** [base := 10; if strings.HasPrefix(value, "0x") { base = 16; value = value[2:] }] *)
Definition numBase (value : string) : Z * string :=
  if Go.HasPrefix value "0x"
  then (16, String.substring 2 (String.length value - 2) value)
  else (10, value).

(** [case "num"] of [addCap].  The error of [ParseUint] is logged and the
    value it returned with the error is stored all the same. *)
Definition addCapNum (s : PState) : outcome PState :=
  let '(base, value) := numBase (buf s) in
  let '(n, err) := Go.ParseUint value base in
  let s := match err with
           | Some _ => logf (InvalidNumber value) s
           | None => s
           end in
  let name := capName s in
  s' ← match numNameCaps cat !! name with
       | Some cap => onTi (λ t, set_Nums (<[cap := n]> (Nums t)) t) s
       | None =>
           match extNumNameCaps s !! name with
           | Some cap =>
               onTi (λ t, set_ExtNums (<[cap := n]> (ExtNums t))
                            (set_ExtNumNames (<[cap := name]> (ExtNumNames t)) t)) s
           | None =>
               let idx := extNumIdx s in
               onTi (λ t, set_ExtNums (<[idx := n]> (ExtNums t))
                            (set_ExtNumNames (<[idx := name]> (ExtNumNames t)) t))
                    (newExtNum name s)
           end
       end;
  Ok (set_capName "" s').

(** [case "str"] of [addCap]. *)
Definition addCapStr (s : PState) : outcome PState :=
  let value := buf s in
  let name := capName s in
  s' ← (if decide (name = "use") then
          onTi (λ t, set_Uses (Uses t ++ [value]) t) s
        else
          match stringNameCaps cat !! name with
          | Some cap => onTi (λ t, set_Strings (<[cap := value]> (Strings t)) t) s
          | None =>
              match extStringNameCaps s !! name with
              | Some cap =>
                  onTi (λ t, set_ExtStrings (<[cap := value]> (ExtStrings t))
                               (set_ExtStringNames (<[cap := name]> (ExtStringNames t)) t)) s
              | None =>
                  let idx := extStringIdx s in
                  onTi (λ t, set_ExtStrings (<[idx := value]> (ExtStrings t))
                               (set_ExtStringNames (<[idx := name]> (ExtStringNames t)) t))
                       (newExtString name s)
              end
          end);
  Ok (set_capName "" s').

(** [addCap := func(typ string) { switch typ {...}; buf.Reset(); esc = GROUND }] *)
Definition addCap (typ : string) (s : PState) : outcome PState :=
  s' ← (if decide (typ = "bool") then addCapBool s
        else if decide (typ = "num") then addCapNum s
        else if decide (typ = "str") then addCapStr s
        else Panic);
  Ok (set_esc GROUND (set_buf "" s')).

Definition isOctal (c : ascii) : bool :=
  bool_decide (48 ≤ Go.byteN c ≤ 55)%N.

(** [((c - '0') * 64) + ((s[i+1] - '0') * 8) + (s[i+2] - '0')] in [byte]
    arithmetic. *)
Definition octalByte (c d1 d2 : ascii) : ascii :=
  ascii_of_N (((Go.byteN c - 48) * 64 + (Go.byteN d1 - 48) * 8
               + (Go.byteN d2 - 48)) mod 256)%N.

(** [c ^ 1<<6] *)
Definition ctrlByte (c : ascii) : ascii :=
  ascii_of_N (N.lxor (Go.byteN c) 64).

(** [case ESC]: the substitution for the byte [c] after a backslash;
    [rest] is [s[i+1:]].  The second component is how far [i] is advanced
    past the bytes of an octal escape. *)
Definition stepEsc (s : PState) (c : ascii) (rest : string) : outcome (PState * nat) :=
  if bool_decide (c = "E" ∨ c = "e")%char then Ok (WriteByte "027" s, 0%nat)
  else if isOctal c then
    match rest with
    | String d1 (String d2 _) =>
        if isOctal d1 && isOctal d2 then Ok (WriteByte (octalByte c d1 d2) s, 2%nat)
        else if decide (c = "0"%char) then Ok (WriteByte "000" s, 0%nat)
        else Ok (s, 0%nat)
    | _ =>
        if decide (c = "0"%char) then Ok (WriteByte "000" s, 0%nat)
        else Ok (s, 0%nat)
    end
  else if decide (c = "n"%char) then Ok (WriteByte "010" s, 0%nat)
  else if decide (c = "r"%char) then Ok (WriteByte "013" s, 0%nat)
  else if decide (c = "t"%char) then Ok (WriteByte "009" s, 0%nat)
  else if decide (c = "b"%char) then Ok (WriteByte "008" s, 0%nat)
  else if decide (c = "f"%char) then Ok (WriteByte "012" s, 0%nat)
  else if decide (c = "s"%char) then Ok (WriteByte " " s, 0%nat)
  else if decide (c = ","%char) then Ok (WriteByte "," s, 0%nat)
  else if decide (c = "l"%char) then Panic
  else Ok (WriteByte c s, 0%nat).

(** One turn of [for i := 0; i < len(s); i++ { c := s[i]; switch esc {...} }]. *)
Definition stepChar (s : PState) (c : ascii) (rest : string) : outcome (PState * nat) :=
  match esc s with
  | GROUND =>
      if decide (c = "="%char) then
        Ok (set_esc NONE (set_buf "" (set_capName (buf s) s)), 0%nat)
      else if decide (c = "#"%char) then
        Ok (set_esc INT (set_buf "" (set_capName (buf s) s)), 0%nat)
      else if decide (c = ","%char) then
        s' ← (if decide (capName s = "") then addCap "bool" s
              else Ok (logf (ShouldntBeHere (capName s)) s));
        Ok (set_buf "" s', 0%nat)
      else if decide (c = " "%char) then Ok (s, 0%nat)
      else Ok (WriteByte c s, 0%nat)
  | INT =>
      if decide (c = ","%char) then
        s' ← addCap "num" s; Ok (set_esc GROUND s', 0%nat)
      else Ok (WriteByte c s, 0%nat)
  | NONE =>
      if decide (c = "\"%char) then Ok (set_esc ESC s, 0%nat)
      else if decide (c = "^"%char) then Ok (set_esc CTRL s, 0%nat)
      else if decide (c = " "%char) then Ok (s, 0%nat)
      else if decide (c = ","%char) then
        s' ← addCap "str" s; Ok (set_esc GROUND s', 0%nat)
      else Ok (WriteByte c s, 0%nat)
  | CTRL => Ok (set_esc NONE (WriteByte (ctrlByte c) s), 0%nat)
  | ESC =>
      '(s', k) ← stepEsc s c rest; Ok (set_esc NONE s', k)
  end.

(** The loop over the bytes of a continuation line; [skip] counts the
    bytes the last turn jumped over ([i = i + 2]). *)
Fixpoint scanChars (skip : nat) (s : PState) (l : string) : outcome PState :=
  match l with
  | "" => Ok s
  | String c rest =>
      match skip with
      | S k => scanChars k s rest
      | O => '(s', k) ← stepChar s c rest; scanChars k s' rest
      end
  end.

(** [if ti != nil { tis = append(tis, ti) }] *)
Definition flush (s : PState) : list Terminfo :=
  match ti s with
  | Some t => tis s ++ [t]
  | None => tis s
  end.

(** The body of [for _, line := range strings.Split(src, "\n")]. *)
Definition parseLine (s : PState) (line : string) : outcome PState :=
  if Go.HasPrefix line "#" || bool_decide (Go.TrimSpace line = "") then Ok s
  else
    let parts := Go.Split "," line in
    match line with
    | "" => Panic                                   (* [line[0]] *)
    | String c0 _ =>
        if negb (Go.IsSpace c0) then
          let names := Go.Split "|" (hd "" parts) in
          Ok (set_ti (Some (newTerminfo names)) (set_tis (flush s) s))
        else scanChars 0 s (Go.TrimSpace line)
    end.

(** The first loop of [Parse]: the state after every line of [src]. *)
Definition scan (src : string) : outcome PState :=
  forEach parseLine initState (Go.Split "010" src).

End Parser.

(** ** The use resolver *)

(** [findTerminfo]: the first model of the batch one of whose names is
    [name]; the pointer it returns is the position in the batch. *)
Fixpoint findTerminfo (tis : list Terminfo) (name : string) : option nat :=
  match tis with
  | [] => None
  | t :: r =>
      if bool_decide (name ∈ Names t) then Some 0%nat
      else S <$> findTerminfo r name
  end.

(** [for k, v := range src { if _, ok := dst[k]; !ok { dst[k] = v } }] *)
Definition collect {A : Type} (dst src : gmap Z A) : gmap Z A :=
  map_fold (λ k v acc, match acc !! k with
                       | Some _ => acc
                       | None => <[k := v]> acc
                       end) dst src.

(** The nine collecting loops of [resolveUses], from [u] into [t]. *)
Definition collectCaps (t u : Terminfo) : Terminfo :=
  mkTerminfo (Names t)
    (collect (Bools t) (Bools u))
    (collect (Nums t) (Nums u))
    (collect (Strings t) (Strings u))
    (BoolsM t) (NumsM t) (StringsM t)
    (collect (ExtBools t) (ExtBools u))
    (collect (ExtNums t) (ExtNums u))
    (collect (ExtStrings t) (ExtStrings u))
    (collect (ExtBoolNames t) (ExtBoolNames u))
    (collect (ExtNumNames t) (ExtNumNames u))
    (collect (ExtStringNames t) (ExtStringNames u))
    (Uses t).

(** The batch [tis] is a slice of pointers: the models live in a store that
    [resolveUses] updates in place, at the position [i] of its argument
    [ti]; the models it reads through [u] are read from the same store. *)
Definition Batch : Type := list Terminfo * list Diag.

Fixpoint resolveUses (fuel : nat) (b : Batch) (i : nat) (use : string)
  : outcome Batch :=
  match fuel with
  | O => OutOfFuel
  | S fuel' =>
      match b.1 !! i with
      | None => Panic
      | Some t0 =>
          match findTerminfo b.1 use with
          | None => Ok (b.1, b.2 ++ [UseNotFound (hd "" (Names t0)) use])
          | Some j =>
              match b.1 !! j with
              | None => Panic
              | Some u0 =>
                  b' ← forEach (λ b1 uu, resolveUses fuel' b1 i uu) b (Uses u0);
                  match b'.1 !! i, b'.1 !! j with
                  | Some t, Some u => Ok (<[i := collectCaps t u]> b'.1, b'.2)
                  | _, _ => Panic
                  end
              end
          end
      end
  end.

(** [for i, ti := range tis { for _, use := range ti.Uses { resolveUses(tis, ti, use); tis[i] = ti } }] *)
Definition resolveAll (fuel : nat) (b : Batch) : outcome Batch :=
  forEach (λ b1 i,
             match b1.1 !! i with
             | None => Panic
             | Some t => forEach (λ b2 use, resolveUses fuel b2 i use) b1 (Uses t)
             end)
          b (seq 0 (length b.1)).

(** [Parse]: the slice it returns (its error is always nil) and what it
    wrote to the log. *)
Definition Parse (cat : Catalog) (fuel : nat) (data : string) : outcome Batch :=
  s ← scan cat data;
  resolveAll fuel (flush s, logs s).

(** ** The reader of the compiled format *)

Module Reader.

(** [ErrBadMagic], [ErrSmallFile], [ErrBadString]. *)
Inductive error : Type := ErrBadMagic | ErrSmallFile | ErrBadString.

(** An [int16] result: the value reduced to [-32768, 32767]. *)
Definition wrap16 (x : Z) : Z := (x + 32768) `mod` 65536 - 32768.

(** [type header [6]int16] *)
Record header : Type := mkHeader { h0 : Z; h1 : Z; h2 : Z; h3 : Z; h4 : Z; h5 : Z }.

Definition badMagic (h : header) : bool := negb (bool_decide (h0 h = 282)).
Definition lenNames (h : header) : Z := h1 h.
Definition lenBools (h : header) : Z := h2 h.
Definition lenNumeric (h : header) : Z := wrap16 (h3 h * 2).
Definition lenStrings (h : header) : Z := wrap16 (h4 h * 2).
Definition lenTable (h : header) : Z := h5 h.
Definition lenFile (h : header) : Z := wrap16 (h1 h + h2 h + h3 h + h4 h + h5 h).
(** [int16(len(h) * 2)] *)
Definition len (h : header) : Z := 12.
(** [(h.lenNames()+h.lenBools())%2 == 1]; Go's [%] truncates. *)
Definition skipNull (h : header) : bool :=
  bool_decide (Z.rem (wrap16 (lenNames h + lenBools h)) 2 = 1).

(** Modelled from the spec: the declaration of [type Terminfo] that this
    reader fills ([Names], [BoolCaps], [NumericCaps], [StringCaps]) is not
    among the sources.  The spec's data model: a mapping from index to
    value for each kind, absence being "no entry"; created empty. *)
Record Terminfo : Type := mkTerminfo {
  Names : list string;
  BoolCaps : gmap Z bool;
  NumericCaps : gmap Z Z;
  StringCaps : gmap Z string;
}.

Definition emptyTerminfo : Terminfo := mkTerminfo [] ∅ ∅ ∅.

Record reader : Type := mkReader {
  pos : Z;
  ppos : Z;
  buf : list ascii;
  ti : Terminfo;
  h : header;
}.

(** [readerPool.New]: a reader with a buffer of 3000 bytes. *)
Definition New : reader :=
  mkReader 0 0 (replicate 3000 "000"%char) emptyTerminfo (mkHeader 0 0 0 0 0 0).

(** Modelled from the spec: [littleEndian(i, buf)], not among the sources,
    reads the little-endian signed 16-bit value at [buf[i]], [buf[i+1]];
    an index out of range panics. *)
Definition littleEndian (i : nat) (b : list ascii) : outcome Z :=
  match b !! i, b !! S i with
  | Some lo, Some hi => Ok (wrap16 (Go.byteZ hi * 256 + Go.byteZ lo))
  | _, _ => Panic
  end.

(** [b[lo:hi]] on a slice whose capacity is its length. *)
Definition sliceOf (b : list ascii) (lo hi : Z) : outcome (list ascii) :=
  if bool_decide (0 ≤ lo ∧ lo ≤ hi ∧ hi ≤ Z.of_nat (length b))
  then Ok (take (Z.to_nat (hi - lo)) (drop (Z.to_nat lo) b))
  else Panic.

(** [r.slice()] *)
Definition slice (r : reader) : outcome (list ascii) :=
  sliceOf (buf r) (ppos r) (pos r).

(** [r.sliceOff(off)] *)
Definition sliceOff (r : reader) (off : Z) : outcome (reader * list ascii) :=
  let r' := mkReader (wrap16 (pos r + off)) (pos r) (buf r) (ti r) (h r) in
  s ← slice r'; Ok (r', s).

(** [r.readHeader(f)], for a file whose content is [f] ([f.Stat] and
    [io.ReadFull] then do not fail). *)
Definition readHeader (r : reader) (f : list ascii) : outcome (reader * option error) :=
  let s := length f in
  if bool_decide (s < 6)%nat then Ok (r, Some ErrSmallFile)
  else
    let n := if bool_decide (s < length (buf r))%nat then s else length (buf r) in
    let b := take n f in
    a0 ← littleEndian 0 b;
    a1 ← littleEndian 2 b;
    a2 ← littleEndian 4 b;
    a3 ← littleEndian 6 b;
    a4 ← littleEndian 8 b;
    a5 ← littleEndian 10 b;
    let r' := mkReader (pos r) (ppos r) b (ti r) (mkHeader a0 a1 a2 a3 a4 a5) in
    if bool_decide (Z.of_nat (length b) < lenFile (h r')) then Ok (r', Some ErrSmallFile)
    else if badMagic (h r') then Ok (r', Some ErrBadMagic)
    else Ok (r', None).

(** [r.readNames()] *)
Definition readNames (r : reader) : outcome reader :=
  let r' := mkReader (wrap16 (len (h r) + lenNames (h r))) (len (h r)) (buf r)
              emptyTerminfo (h r) in
  s ← slice r';
  Ok (mkReader (pos r') (ppos r') (buf r')
        (mkTerminfo (Go.Split "|" (string_of_list_ascii s)) ∅ ∅ ∅) (h r')).

Definition setBool (i : Z) (t : Terminfo) : Terminfo :=
  mkTerminfo (Names t) (<[i := true]> (BoolCaps t)) (NumericCaps t) (StringCaps t).
Definition setNum (i v : Z) (t : Terminfo) : Terminfo :=
  mkTerminfo (Names t) (BoolCaps t) (<[i := v]> (NumericCaps t)) (StringCaps t).
Definition setString (i : Z) (v : string) (t : Terminfo) : Terminfo :=
  mkTerminfo (Names t) (BoolCaps t) (NumericCaps t) (<[i := v]> (StringCaps t)).

(** [for i, b := range bs { if b == 1 { r.ti.BoolCaps[i] = true } }] *)
Fixpoint boolsFrom (i : Z) (bs : list ascii) (t : Terminfo) : Terminfo :=
  match bs with
  | [] => t
  | b :: bs' =>
      boolsFrom (i + 1) bs' (if decide (Go.byteZ b = 1) then setBool i t else t)
  end.

(** [r.readBools()] *)
Definition readBools (r : reader) : outcome reader :=
  '(r1, bs) ← sliceOff r (lenBools (h r));
  let t := boolsFrom 0 bs (ti r1) in
  let p := if skipNull (h r1) then wrap16 (pos r1 + 1) else pos r1 in
  Ok (mkReader p (ppos r1) (buf r1) t (h r1)).

(** The values of [j] in [for j := 0; j < n; j += 2]. *)
Definition evens (n : nat) : list nat :=
  map (λ k, 2 * k)%nat (seq 0 (Nat.div2 (S n))).

(** [r.readNumbers()] *)
Definition readNumbers (r : reader) : outcome reader :=
  '(r1, nbuf) ← sliceOff r (lenNumeric (h r));
  t ← forEach (λ t j,
                 n ← littleEndian j nbuf;
                 Ok (if bool_decide (-1 < n) then setNum (Z.of_nat j / 2) n t else t))
              (ti r1) (evens (length nbuf));
  Ok (mkReader (pos r1) (ppos r1) (buf r1) t (h r1)).

(** [for ; table[x] != 0; x++ { if x+1 >= len(table) { return ErrBadString } }]
    run on [table[x:]]: how far [x] moves before [table[x] == 0], or
    [None] for [ErrBadString]; [table[x]] out of range panics. *)
Fixpoint scanNul (l : list ascii) : outcome (option nat) :=
  match l with
  | [] => Panic
  | c :: l' =>
      if decide (Go.byteZ c = 0) then Ok (Some 0%nat)
      else match l' with
           | [] => Ok None
           | _ :: _ => o ← scanNul l'; Ok (fmap (M := option) S o)
           end
  end.

(** The loop of [readStrings] over the offsets in [js]. *)
Fixpoint stringsFrom (sbuf table : list ascii) (js : list nat) (t : Terminfo)
  : outcome (Terminfo * option error) :=
  match js with
  | [] => Ok (t, None)
  | j :: js' =>
      off ← littleEndian j sbuf;
      if bool_decide (-1 < off) then
        o ← scanNul (drop (Z.to_nat off) table);
        match o with
        | None => Ok (t, Some ErrBadString)
        | Some n =>
            let v := string_of_list_ascii (take n (drop (Z.to_nat off) table)) in
            stringsFrom sbuf table js' (setString (Z.of_nat j / 2) v t)
        end
      else stringsFrom sbuf table js' t
  end.

(** [r.readStrings()] *)
Definition readStrings (r : reader) : outcome (reader * option error) :=
  '(r1, sbuf) ← sliceOff r (lenStrings (h r));
  table ← sliceOf (buf r1) (pos r1) (wrap16 (pos r1 + lenTable (h r1)));
  '(t, err) ← stringsFrom sbuf table (evens (length sbuf)) (ti r1);
  Ok (mkReader (pos r1) (ppos r1) (buf r1) t (h r1), err).

(** [r.read(f)] *)
Definition read (r : reader) (f : list ascii) : outcome (reader * option error) :=
  '(r0, err) ← readHeader r f;
  match err with
  | Some e => Ok (r0, Some e)
  | None =>
      r1 ← readNames r0;
      r2 ← readBools r1;
      r3 ← readNumbers r2;
      readStrings r3
  end.

(** What a caller gets from a fresh reader: the error, or the model. *)
Definition decode (f : list ascii) : outcome (error + Terminfo) :=
  '(r, err) ← read New f;
  match err with
  | Some e => Ok (inl e)
  | None => Ok (inr (ti r))
  end.

(** [r.free()]: the positions and the header are reset; the buffer, as
    [readHeader] left it, goes back to the pool with the reader. *)
Definition free (r : reader) : reader :=
  mkReader 0 0 (buf r) (ti r) (mkHeader 0 0 0 0 0 0).

(** The bytes of a file given as numbers. *)
Definition bytes (l : list Z) : list ascii := map (λ z, ascii_of_N (Z.to_N z)) l.

End Reader.

(** ** The layout of a compiled file

    The sections of a file [f], by the offsets of the format: the header
    (six words), the names, the booleans, one byte of padding when the two
    lengths have an odd sum, the numbers (one word each), the string
    offsets (one word each), the string table.  The theorems on the reader
    are stated about these slots. *)

Module Layout.

(** The signed little-endian word at offset [i] of [f]. *)
Definition word (f : list ascii) (i : nat) : option Z :=
  match f !! i, f !! S i with
  | Some lo, Some hi => Some (Reader.wrap16 (Go.byteZ hi * 256 + Go.byteZ lo))
  | _, _ => None
  end.

(** Field [k] of the header, [k < 6]. *)
Definition field (f : list ascii) (k : nat) : option Z := word f (2 * k).

(** Where the numbers start. *)
Definition numStart (f : list ascii) : option Z :=
  a ← field f 1; b ← field f 2;
  Some (12 + a + b + (if bool_decide (Z.odd (a + b) = true) then 1 else 0)).

(** Slot [j] of the numbers: the word, when the header declares more
    than [j] numbers. *)
Definition numSlot (f : list ascii) (j : nat) : option Z :=
  s ← numStart f; n ← field f 3;
  if bool_decide (Z.of_nat j < n) then word f (Z.to_nat s + 2 * j) else None.

(** Slot [j] of the string offsets, which follow the numbers. *)
Definition strSlot (f : list ascii) (j : nat) : option Z :=
  s ← numStart f; n ← field f 3; m ← field f 4;
  if bool_decide (0 ≤ n ∧ Z.of_nat j < m)
  then word f (Z.to_nat (s + 2 * n) + 2 * j) else None.

End Layout.

(** ** The registry

    [type Terminfos map[string]*Terminfo]: the pointer stored under an
    alias is modelled by the model it points to. *)

(** [tis.Set(ti)]: [for _, n := range ti.Names { tis[n] = ti }] *)
Definition TerminfosSet (tim : gmap string Terminfo) (t : Terminfo)
  : gmap string Terminfo :=
  foldl (λ m n, <[n := t]> m) tim (Names t).

(** [NewTerminfos(tis)] *)
Definition NewTerminfos (tis : list Terminfo) : gmap string Terminfo :=
  foldl TerminfosSet ∅ tis.

(** [tis.Find(name)]: nil when the alias is not a key. *)
Definition TerminfosFind (tim : gmap string Terminfo) (name : string)
  : option Terminfo :=
  tim !! name.

(** ** Vocabulary of the statements *)

(** The three cases of the body of [Parse]'s loop over the lines. *)
Inductive LineKind : Type := Ignored | Header | Continuation.

#[global] Instance LineKind_eq_dec : EqDecision LineKind.
Proof. solve_decision. Defined.

Definition lineKind (line : string) : LineKind :=
  if Go.HasPrefix line "#" || bool_decide (Go.TrimSpace line = "") then Ignored
  else match line with
       | "" => Ignored
       | String c0 _ => if negb (Go.IsSpace c0) then Header else Continuation
       end.

(** The byte [c] occurs in [s]. *)
Fixpoint occurs (c : ascii) (s : string) : bool :=
  match s with
  | "" => false
  | String a r => bool_decide (a = c) || occurs c r
  end.

(** Every backslash of [s] is followed by a byte, and that byte is not [l]. *)
Fixpoint escSafe (s : string) : bool :=
  match s with
  | "" => true
  | String c r =>
      (if decide (c = "\"%char)
       then match r with
            | String d _ => negb (bool_decide (d = "l"%char))
            | "" => false
            end
       else true) && escSafe r
  end.

(** The texts the character loop runs on: the continuation lines of [src],
    trimmed. *)
Definition contTexts (src : string) : list string :=
  map Go.TrimSpace
      (filter (λ l, lineKind l = Continuation) (Go.Split "010" src)).

(** The first line of [src] that is not ignored, if any, starts an entry. *)
Definition headerFirst (src : string) : bool :=
  match filter (λ l, lineKind l ≠ Ignored) (Go.Split "010" src) with
  | [] => true
  | l :: _ => bool_decide (lineKind l = Header)
  end.

(** The names and the use references of the models of a batch: what
    [findTerminfo] and the recursion of [resolveUses] depend on. *)
Definition shape (tis : list Terminfo) : list (list string * list string) :=
  map (λ t, (Names t, Uses t)) tis.

(** [rank] decreases along every use reference that [findTerminfo]
    resolves: the references of the batch have no cycle. *)
Definition usesRanked (rank : nat → nat) (tis : list Terminfo) : Prop :=
  ∀ j t u k, tis !! j = Some t → u ∈ Uses t → findTerminfo tis u = Some k →
             (rank k < rank j)%nat.

(** Every entry of [t] is still an entry of [t']: the nine capability maps. *)
Definition capsKept (t t' : Terminfo) : Prop :=
  Bools t ⊆ Bools t' ∧ Nums t ⊆ Nums t' ∧ Strings t ⊆ Strings t'
  ∧ ExtBools t ⊆ ExtBools t' ∧ ExtNums t ⊆ ExtNums t' ∧ ExtStrings t ⊆ ExtStrings t'
  ∧ ExtBoolNames t ⊆ ExtBoolNames t' ∧ ExtNumNames t ⊆ ExtNumNames t'
  ∧ ExtStringNames t ⊆ ExtStringNames t'.

(** What one run of [resolveUses] on the model at [i] does to the batch:
    names and use references stay, the other models stay, and the model at
    [i] keeps every entry it had. *)
Definition resolved (i : nat) (b b' : Batch) : Prop :=
  shape b'.1 = shape b.1
  ∧ (∀ j, j ≠ i → b'.1 !! j = b.1 !! j)
  ∧ (∀ t, b.1 !! i = Some t → ∃ t', b'.1 !! i = Some t' ∧ capsKept t t').

(** A table of extended names [tbl] with its counter [idx]: the names map
    one-to-one onto [0, idx). *)
Definition extTableOk (idx : Z) (tbl : gmap string Z) : Prop :=
  idx = Z.of_nat (size tbl)
  ∧ (∀ n i, tbl !! n = Some i → 0 ≤ i < idx)
  ∧ (∀ n1 n2 i, tbl !! n1 = Some i → tbl !! n2 = Some i → n1 = n2).

(** The extended names of a model carry the indices of the table. *)
Definition modelAgrees (tbl : gmap string Z) (names : gmap Z string) : Prop :=
  ∀ i n, names !! i = Some n → tbl !! n = Some i.

(** The three tables of extended names of [t] agree with the tables of the
    run. *)
Definition modelOk (s : PState) (t : Terminfo) : Prop :=
  modelAgrees (extBoolNameCaps s) (ExtBoolNames t)
  ∧ modelAgrees (extNumNameCaps s) (ExtNumNames t)
  ∧ modelAgrees (extStringNameCaps s) (ExtStringNames t).

(** The state of the extended names during a run: each counter counts the
    names of its table, and every model read so far carries the indices of
    the tables of the run. *)
Definition ExtInv (s : PState) : Prop :=
  extTableOk (extBoolIdx s) (extBoolNameCaps s)
  ∧ extTableOk (extNumIdx s) (extNumNameCaps s)
  ∧ extTableOk (extStringIdx s) (extStringNameCaps s)
  ∧ ∀ t, t ∈ flush s → modelOk s t.

(** The models, the tables of extended names and the log of [s'] are those
    of [s]: only the accumulator, the pending name and the machine state may
    differ. *)
Definition sameModels (s s' : PState) : Prop :=
  tis s' = tis s ∧ ti s' = ti s ∧ logs s' = logs s
  ∧ extBoolIdx s' = extBoolIdx s ∧ extNumIdx s' = extNumIdx s
  ∧ extStringIdx s' = extStringIdx s
  ∧ extBoolNameCaps s' = extBoolNameCaps s ∧ extNumNameCaps s' = extNumNameCaps s
  ∧ extStringNameCaps s' = extStringNameCaps s.

(** The names a line that starts an entry gives its model:
    [strings.Split(parts[0], "|")]. *)
Definition headerNames (line : string) : list string :=
  Go.Split "|" (hd "" (Go.Split "," line)).

(** The lines of [src] that start an entry. *)
Definition headerLines (src : string) : list string :=
  filter (λ l, lineKind l = Header) (Go.Split "010" src).

(** No byte of [s] is one of [stop]. *)
Fixpoint plain (stop : list ascii) (s : string) : bool :=
  match s with
  | "" => true
  | String c r => negb (bool_decide (c ∈ stop)) && plain stop r
  end.

(** The bytes that end or alter a name in [GROUND], and a value in [NONE]. *)
Definition nameStops : list ascii := ["="; "#"; ","; " "]%char.
Definition valueStops : list ascii := ["\"; "^"; " "; ","]%char.

(** ** Sample inputs *)

Definition nl : string := String "010" "".
Definition tab : string := String "009" "".

(** A catalog with the three standard names of the spec's example. *)
Definition sampleCatalog : Catalog :=
  mkCatalog {[ "am" := 1 ]} {[ "cols" := 0 ]} {[ "bold" := 27 ]}.


(** An entry with two numbers that do not parse: one standard, one
    extended. *)
Definition badNumberSource : string :=
  "a," +:+ nl +:+ tab +:+ "cols#zz, xx#-1,".

(** The state of the parser when the comma after [cols#zz] is read. *)
Definition badNumberState : PState :=
  mkPState [] (Some (newTerminfo ["a"])) "cols" INT "zz" 0 0 0 ∅ ∅ ∅ [].

(** A chain of three entries: [A] uses [B], [B] uses [C]; [B] and [C] both
    define [cols]. *)
Definition chainSource : string :=
  "C," +:+ nl +:+ tab +:+ "cols#1," +:+ nl
  +:+ "B," +:+ nl +:+ tab +:+ "cols#2, use=C," +:+ nl
  +:+ "A," +:+ nl +:+ tab +:+ "use=B," +:+ nl.

(** An entry that uses another one. *)
Definition useSource : string :=
  "a," +:+ nl +:+ tab +:+ "use=b," +:+ nl +:+ "b," +:+ nl +:+ tab +:+ "am,".

(** A string value with the escape [\l]. *)
Definition escLSource : string :=
  "a," +:+ nl +:+ tab +:+ "x=\l," +:+ nl.


(** A batch as the first loop of [Parse] leaves it: [B] defines the number
    0 as 5; [A] defines it as 7 and uses [B]. *)
Definition sampleBatch : Batch :=
  ([set_Nums {[ 0 := 5 ]} (newTerminfo ["B"]);
    set_Uses ["B"] (set_Nums {[ 0 := 7 ]} (newTerminfo ["A"]))], []).

(** An entry that uses itself. *)
Definition selfSource : string :=
  "a," +:+ nl +:+ tab +:+ "use=a,".

(** The state of the parser after the line [xterm,]. *)
Definition entryState : PState :=
  mkPState [] (Some (newTerminfo ["xterm"])) "" GROUND "" 0 0 0 ∅ ∅ ∅ [].

(** A compiled file: names ["a"], one boolean, numbers 80 and -1, string
    offsets 0 and -1, table ["hi"]. *)
Definition sampleFile : list ascii :=
  Reader.bytes [26; 1; 2; 0; 1; 0; 2; 0; 2; 0; 3; 0;
                97; 0; 1; 0; 80; 0; 255; 255; 0; 0; 255; 255; 104; 105; 0].


Definition sampleStringsReader : Reader.reader :=
  Reader.mkReader 20 16 sampleFile
    (Reader.mkTerminfo [String "a" (String "000" EmptyString)]
       {[ 0 := true ]} {[ 0 := 80 ]} ∅)
    (Reader.mkHeader 282 2 1 2 2 3).

(** A compiled file whose only string has no terminating NUL. *)
Definition openStringFile : list ascii :=
  Reader.bytes [26; 1; 2; 0; 0; 0; 0; 0; 1; 0; 2; 0;
                97; 0; 0; 0; 104; 105].

(** * Properties *)

(** ** Outcomes *)

Lemma bind_Ok {A B : Type} (m : outcome A) (k : A → outcome B) (b : B) :
  m ≫= k = Ok b → ∃ a, m = Ok a ∧ k a = Ok b.
Proof. destruct m as [a| |]; simpl; intros H; [eauto | discriminate..]. Qed.

Tactic Notation "inv_bind" hyp(H) "as" simple_intropattern(x) ident(Hx) :=
  apply bind_Ok in H; destruct H as [x [Hx H]].

(** ** The reader *)

Section ReaderFacts.

Import Reader.

Lemma wrap16_id (x : Z) : -32768 ≤ x ≤ 32767 → wrap16 x = x.
Proof. intros Hx. unfold wrap16. rewrite Z.mod_small; lia. Qed.

Lemma wrap16_range (x : Z) : -32768 ≤ wrap16 x ≤ 32767.
Proof.
  unfold wrap16.
  pose proof (Z.mod_pos_bound (x + 32768) 65536 ltac:(lia)). lia.
Qed.

Lemma wrap16_cases (x : Z) :
  -65536 ≤ x ≤ 98303 →
  (x < -32768 ∧ wrap16 x = x + 65536) ∨ (-32768 ≤ x ≤ 32767 ∧ wrap16 x = x)
  ∨ (32767 < x ∧ wrap16 x = x - 65536).
Proof.
  intros Hx. unfold wrap16.
  destruct (decide (x < -32768)); [left|right; destruct (decide (x ≤ 32767)); [left|right]].
  - split; [done|].
    rewrite <- (Z.mod_unique (x + 32768) 65536 (-1) (x + 32768 + 65536)); lia.
  - split; [lia|]. rewrite Z.mod_small; lia.
  - split; [lia|].
    rewrite <- (Z.mod_unique (x + 32768) 65536 1 (x + 32768 - 65536)); lia.
Qed.

Lemma littleEndian_word (i : nat) (b : list ascii) (v : Z) :
  littleEndian i b = Ok v ↔ Layout.word b i = Some v.
Proof.
  unfold littleEndian, Layout.word.
  destruct (b !! i), (b !! S i); split; intros H; simplify_eq; done.
Qed.

Lemma word_range (b : list ascii) (i : nat) (v : Z) :
  Layout.word b i = Some v → -32768 ≤ v ≤ 32767.
Proof.
  unfold Layout.word. destruct (b !! i), (b !! S i); intros H; simplify_eq.
  apply wrap16_range.
Qed.

Lemma word_lt (b : list ascii) (i : nat) (v : Z) :
  Layout.word b i = Some v → (S i < length b)%nat.
Proof.
  unfold Layout.word. destruct (b !! i) eqn:E1; [|done].
  destruct (b !! S i) eqn:E2; [|done]. intros _.
  by apply lookup_lt_Some in E2.
Qed.

Lemma word_take (f : list ascii) (n i : nat) :
  (S i < n)%nat → Layout.word (take n f) i = Layout.word f i.
Proof.
  intros Hi. unfold Layout.word.
  rewrite !lookup_take_lt by lia. done.
Qed.

Lemma sliceOf_Ok (b s : list ascii) (lo hi : Z) :
  sliceOf b lo hi = Ok s →
  0 ≤ lo ∧ lo ≤ hi ∧ hi ≤ Z.of_nat (length b)
  ∧ s = take (Z.to_nat (hi - lo)) (drop (Z.to_nat lo) b)
  ∧ length s = Z.to_nat (hi - lo).
Proof.
  unfold sliceOf. case_bool_decide as Hb; [|done]. intros H; simplify_eq.
  repeat split; try lia.
  rewrite length_take, length_drop. lia.
Qed.

Lemma word_slice (b s : list ascii) (lo hi : Z) (j : nat) :
  sliceOf b lo hi = Ok s → (S j < length s)%nat →
  Layout.word s j = Layout.word b (Z.to_nat lo + j).
Proof.
  intros Hs Hj. apply sliceOf_Ok in Hs as (H0 & H1 & H2 & -> & Hl).
  unfold Layout.word.
  rewrite !lookup_take_lt by lia. rewrite !lookup_drop.
  by replace (Z.to_nat lo + S j)%nat with (S (Z.to_nat lo + j)) by lia.
Qed.

Lemma sliceOff_Ok (r r1 : reader) (off : Z) (s : list ascii) :
  sliceOff r off = Ok (r1, s) →
  r1 = mkReader (wrap16 (pos r + off)) (pos r) (buf r) (ti r) (h r)
  ∧ sliceOf (buf r) (pos r) (wrap16 (pos r + off)) = Ok s.
Proof.
  unfold sliceOff, slice. simpl. intros H. inv_bind H as s' Hs. by simplify_eq.
Qed.

Lemma half_double (k : nat) : Z.of_nat (2 * k) / 2 = Z.of_nat k.
Proof. rewrite Nat2Z.inj_mul. rewrite Z.mul_comm, Z.div_mul; lia. Qed.

(** The loop of [readNumbers] over the slots [a], ..., [a + c - 1]. *)
Lemma numLoop_spec (nbuf : list ascii) (c a : nat) (t t' : Terminfo) :
  forEach (λ t j,
             n ← littleEndian j nbuf;
             Ok (if bool_decide (-1 < n) then setNum (Z.of_nat j / 2) n t else t))
          t (map (λ k, 2 * k)%nat (seq a c)) = Ok t' →
  Names t' = Names t ∧ BoolCaps t' = BoolCaps t ∧ StringCaps t' = StringCaps t
  ∧ (∀ k, (a ≤ k < a + c)%nat →
       ∃ v, Layout.word nbuf (2 * k) = Some v
            ∧ NumericCaps t' !! Z.of_nat k
              = if bool_decide (-1 < v) then Some v else NumericCaps t !! Z.of_nat k)
  ∧ (∀ z, (∀ k, (a ≤ k < a + c)%nat → z ≠ Z.of_nat k) →
       NumericCaps t' !! z = NumericCaps t !! z)
  ∧ (∀ z v, NumericCaps t' !! z = Some v → NumericCaps t !! z = Some v ∨ 0 ≤ v).
Proof.
  revert a t. induction c as [|c IH]; intros a t H.
  - simpl in H. simplify_eq. repeat split; try done; [intros; lia | auto].
  - cbn [seq map forEach] in H. inv_bind H as t1' Ht. inv_bind Ht as v Ha0.
    apply littleEndian_word in Ha0.
    injection Ht as <-.
    apply IH in H as (HN & HB & HS & Hin & Hout & Hpos).
    change (a + (a + 0))%nat with (2 * a)%nat in *.
    set (t1 := if bool_decide (-1 < v) then setNum (Z.of_nat (2 * a) / 2) v t else t) in *.
    assert (Ht1 : NumericCaps t1 !! Z.of_nat a
                  = if bool_decide (-1 < v) then Some v else NumericCaps t !! Z.of_nat a).
    { subst t1. case_bool_decide; [|done]. unfold setNum; cbn [NumericCaps].
      rewrite half_double. apply lookup_insert_eq. }
    assert (Ht1' : ∀ z, z ≠ Z.of_nat a → NumericCaps t1 !! z = NumericCaps t !! z).
    { intros z Hz. subst t1. case_bool_decide; [|done]. unfold setNum; cbn [NumericCaps].
      rewrite half_double. by apply lookup_insert_ne. }
    assert (Hf : Names t1 = Names t ∧ BoolCaps t1 = BoolCaps t ∧ StringCaps t1 = StringCaps t).
    { subst t1. by case_bool_decide. }
    destruct Hf as (HN1 & HB1 & HS1).
    split; [by rewrite HN|]. split; [by rewrite HB|]. split; [by rewrite HS|].
    split; [|split].
    + intros k Hk. destruct (decide (k = a)) as [->|Hne].
      * exists v. split; [done|]. rewrite Hout; [done|]. intros k Hk'. lia.
      * destruct (Hin k ltac:(lia)) as (w & Hw & Hl). exists w. split; [done|].
        rewrite Hl. case_bool_decide; [done|]. apply Ht1'. lia.
    + intros z Hz. rewrite Hout.
      * apply Ht1'. apply Hz. lia.
      * intros k Hk. apply Hz. lia.
    + intros z w Hw. destruct (Hpos z w Hw) as [H1|H1]; [|by right].
      destruct (decide (z = Z.of_nat a)) as [->|Hne].
      * rewrite Ht1 in H1. case_bool_decide; [right; simplify_eq; lia | by left].
      * left. by rewrite <- Ht1'.
Qed.

(** The loop of [readStrings]: a slot whose offset is [<= -1] leaves the
    entry of its index as it was. *)
Lemma strLoop_absent (sbuf table : list ascii) (c a : nat) (t t' : Terminfo)
    (err : option error) :
  stringsFrom sbuf table (map (λ k, 2 * k)%nat (seq a c)) t = Ok (t', err) →
  Names t' = Names t ∧ BoolCaps t' = BoolCaps t ∧ NumericCaps t' = NumericCaps t
  ∧ ∀ k off, Layout.word sbuf (2 * k) = Some off → off ≤ -1 →
      StringCaps t' !! Z.of_nat k = StringCaps t !! Z.of_nat k.
Proof.
  revert a t. induction c as [|c IH]; intros a t H.
  - simpl in H. by simplify_eq.
  - cbn [seq map stringsFrom] in H. inv_bind H as off Ha.
    apply littleEndian_word in Ha.
    case_bool_decide as Hoff.
    + inv_bind H as o Ho. destruct o as [n|].
      * apply IH in H as (HN & HB & HM & HS).
        unfold setString in *; cbn [Names BoolCaps NumericCaps StringCaps] in *.
        repeat split; try done.
        intros k off' Hk Hle. rewrite (HS k off' Hk Hle).
        rewrite half_double. apply lookup_insert_ne.
        intros Heq. apply Nat2Z.inj in Heq. subst k. simplify_eq. lia.
      * by simplify_eq.
    + apply IH in H as (HN & HB & HM & HS). done.
Qed.

Lemma word_take_Some (f : list ascii) (n i : nat) (v : Z) :
  Layout.word (take n f) i = Some v → Layout.word f i = Some v.
Proof.
  intros H. pose proof (word_lt _ _ _ H) as Hl.
  rewrite length_take in Hl. rewrite word_take in H by lia. done.
Qed.

Lemma boolsFrom_others (bs : list ascii) (i : Z) (t : Terminfo) :
  Names (boolsFrom i bs t) = Names t
  ∧ NumericCaps (boolsFrom i bs t) = NumericCaps t
  ∧ StringCaps (boolsFrom i bs t) = StringCaps t.
Proof.
  revert i t. induction bs as [|b bs IH]; intros i t; [done|].
  cbn [boolsFrom]. destruct (IH (i + 1) (if decide (Go.byteZ b = 1) then setBool i t else t))
    as (-> & -> & ->).
  by case_decide.
Qed.

Lemma evens_double (n : nat) : evens (2 * n) = map (λ k, 2 * k)%nat (seq 0 n).
Proof.
  unfold evens. f_equal. f_equal. apply Nat.div2_succ_double.
Qed.

Lemma wrap16_even (x : Z) : Z.even (wrap16 (x * 2)) = true.
Proof.
  unfold wrap16.
  rewrite (Z.mod_eq (x * 2 + 32768) 65536) by lia.
  set (q := (x * 2 + 32768) `div` 65536).
  replace (x * 2 + 32768 - 65536 * q - 32768) with (2 * (x - 32768 * q)) by lia.
  apply Z.even_mul.
Qed.

(** What a run of [read] that returns no error has established: the
    positions of the sections, none of them wrapped, and the loops run on
    the sections of the buffer. *)
Lemma read_Ok (r r' : reader) (f : list ascii) :
  read r f = Ok (r', None) →
  ∃ b a1 a2 a3 a4 pad nbuf sbuf table t2,
    (∃ n, b = take n f)
    ∧ Layout.word b 2 = Some a1 ∧ Layout.word b 4 = Some a2
    ∧ Layout.word b 6 = Some a3 ∧ Layout.word b 8 = Some a4
    ∧ 0 ≤ a1 ∧ 0 ≤ a2
    ∧ pad = (if bool_decide (Z.odd (a1 + a2) = true) then 1 else 0)
    ∧ 0 ≤ wrap16 (a3 * 2) ∧ 0 ≤ wrap16 (a4 * 2)
    ∧ sliceOf b (12 + a1 + a2 + pad) (12 + a1 + a2 + pad + wrap16 (a3 * 2)) = Ok nbuf
    ∧ sliceOf b (12 + a1 + a2 + pad + wrap16 (a3 * 2))
                (12 + a1 + a2 + pad + wrap16 (a3 * 2) + wrap16 (a4 * 2)) = Ok sbuf
    ∧ NumericCaps t2 = ∅ ∧ StringCaps t2 = ∅
    ∧ ∃ t3,
        forEach (λ t j,
                   n ← littleEndian j nbuf;
                   Ok (if bool_decide (-1 < n) then setNum (Z.of_nat j / 2) n t else t))
                t2 (evens (length nbuf)) = Ok t3
        ∧ stringsFrom sbuf table (evens (length sbuf)) t3 = Ok (ti r', None).
Proof.
  unfold read. intros H. inv_bind H as [r0 [e|]] Hh; [done|].
  inv_bind H as r1 Hn. inv_bind H as r2 Hb. inv_bind H as r3 Hm.
  (* the header *)
  unfold readHeader in Hh. case_bool_decide as Hs; [done|].
  set (b := take _ f) in Hh.
  inv_bind Hh as m0 W0. inv_bind Hh as a1 W1. inv_bind Hh as a2 W2.
  inv_bind Hh as a3 W3. inv_bind Hh as a4 W4. inv_bind Hh as a5 W5.
  apply littleEndian_word in W0, W1, W2, W3, W4, W5.
  cbn [h] in Hh. case_bool_decide as Hlen; [done|].
  destruct (badMagic _); [done|]. injection Hh as <-.
  pose proof (word_range _ _ _ W1) as R1. pose proof (word_range _ _ _ W2) as R2.
  (* the names *)
  unfold readNames, len, lenNames in Hn. cbn [h buf h1] in Hn.
  inv_bind Hn as ns Hns. unfold slice in Hns. cbn [buf pos ppos] in Hns.
  apply sliceOf_Ok in Hns as (_ & N1 & N2 & _ & _).
  injection Hn as <-.
  destruct (wrap16_cases (12 + a1) ltac:(lia)) as [[? E1]|[[? E1]|[? E1]]];
    rewrite E1 in *; try lia.
  (* the booleans *)
  unfold readBools, lenBools in Hb. cbn [h h2] in Hb.
  inv_bind Hb as [r1' bs] Hbs. apply sliceOff_Ok in Hbs as [-> Hbs].
  cbn [pos buf ppos ti h] in *. injection Hb as <-.
  apply sliceOf_Ok in Hbs as (_ & B1 & B2 & _ & _).
  destruct (wrap16_cases (12 + a1 + a2) ltac:(lia)) as [[? E2]|[[? E2]|[? E2]]];
    rewrite E2 in *; try lia.
  (* the numbers *)
  unfold readNumbers, lenNumeric, skipNull, lenNames, lenBools in Hm.
  cbn [h h1 h2 h3] in Hm.
  inv_bind Hm as [r2' nbuf] Hnb. apply sliceOff_Ok in Hnb as [-> Hnb].
  cbn [pos buf ppos ti h] in *.
  inv_bind Hm as t3 Hloop. injection Hm as <-.
  rewrite (wrap16_id (a1 + a2)) in * by lia.
  pose proof (wrap16_range (a3 * 2)) as R3.
  pose proof (wrap16_range (a4 * 2)) as R4.
  set (pad := if bool_decide (Z.odd (a1 + a2) = true) then 1 else 0).
  assert (Hpad : (if bool_decide (Z.rem (a1 + a2) 2 = 1)
                  then wrap16 (12 + a1 + a2 + 1) else 12 + a1 + a2)
                 = wrap16 (12 + a1 + a2 + pad)).
  { subst pad. rewrite Z.rem_mod_nonneg by lia.
    rewrite (Zmod_odd (a1 + a2)).
    destruct (Z.odd (a1 + a2)); simpl.
    - done.
    - rewrite Z.add_0_r. symmetry. apply wrap16_id. lia. }
  rewrite Hpad in *. clear Hpad.
  assert (0 ≤ pad ≤ 1) by (subst pad; case_bool_decide; lia).
  pose proof Hnb as Hnb'.
  apply sliceOf_Ok in Hnb' as (M0 & M1 & M2 & _ & _).
  destruct (wrap16_cases (12 + a1 + a2 + pad) ltac:(lia)) as [[? E3]|[[? E3]|[? E3]]];
    rewrite E3 in *; try lia.
  destruct (wrap16_cases (12 + a1 + a2 + pad + wrap16 (a3 * 2)) ltac:(lia))
    as [[? E4]|[[? E4]|[? E4]]]; rewrite E4 in *; try lia.
  (* the strings *)
  unfold readStrings, lenStrings, lenTable in H. cbn [h h4 h5 pos buf ppos ti] in H.
  inv_bind H as [r3' sbuf] Hsb. apply sliceOff_Ok in Hsb as [-> Hsb].
  cbn [pos buf ppos ti h] in *.
  inv_bind H as table Htb. inv_bind H as [t4 e4] Hstr.
  injection H as <- ->.
  pose proof Hsb as Hsb'.
  apply sliceOf_Ok in Hsb' as (S0 & S1 & S2 & _ & _).
  destruct (wrap16_cases (12 + a1 + a2 + pad + wrap16 (a3 * 2) + wrap16 (a4 * 2))
              ltac:(lia)) as [[? E5]|[[? E5]|[? E5]]]; rewrite E5 in *; try lia.
  exists b, a1, a2, a3, a4, pad, nbuf, sbuf, table.
  match type of Hloop with forEach _ ?t _ = _ => exists t end.
  split; [by eexists|].
  repeat (split; [done || lia|]).
  split; [by rewrite (proj1 (proj2 (boolsFrom_others _ _ _)))|].
  split; [by rewrite (proj2 (proj2 (boolsFrom_others _ _ _)))|].
  exists t3. split; [exact Hloop|]. exact Hstr.
Qed.

Lemma wrap16_double_nat (a : Z) :
  0 ≤ wrap16 (a * 2) → ∃ m : nat, Z.to_nat (wrap16 (a * 2)) = (2 * m)%nat
                                  ∧ (0 ≤ a ≤ 32767 → Z.of_nat m = a).
Proof.
  intros Hw. pose proof (wrap16_even a) as He.
  apply Z.even_spec in He as [m Hm].
  exists (Z.to_nat m). split; [lia|].
  intros Ha. destruct (wrap16_cases (a * 2) ltac:(lia)) as [[? E]|[[? E]|[? E]]]; lia.
Qed.

(** C8. After a run of [read] that returns no error, every numeric slot
    of the file whose word is [> -1] is stored at the index of the slot,
    and a slot whose word is [<= -1] has no entry; no stored number is
    negative; a string-offset slot whose word is [<= -1] has no entry. *)
Theorem read_sentinel_absent (r r' : reader) (f : list ascii) :
  read r f = Ok (r', None) →
  (∀ j v, Layout.numSlot f j = Some v →
     (-1 < v → NumericCaps (ti r') !! Z.of_nat j = Some v)
     ∧ (v ≤ -1 → NumericCaps (ti r') !! Z.of_nat j = None))
  ∧ (∀ k v, NumericCaps (ti r') !! k = Some v → 0 ≤ v)
  ∧ (∀ j off, Layout.strSlot f j = Some off → off ≤ -1 →
       StringCaps (ti r') !! Z.of_nat j = None).
Proof.
  intros H.
  destruct (read_Ok _ _ _ H)
    as (b & a1 & a2 & a3 & a4 & pad & nbuf & sbuf & table & t2 & [n ->] & W1 & W2
        & W3 & W4 & P1 & P2 & Hpad & L3 & L4 & Hnb & Hsb & N0 & S0 & t3 & Hnum & Hstr).
  pose proof (word_take_Some _ _ _ _ W1) as F1.
  pose proof (word_take_Some _ _ _ _ W2) as F2.
  pose proof (word_take_Some _ _ _ _ W3) as F3.
  pose proof (word_take_Some _ _ _ _ W4) as F4.
  pose proof (word_range _ _ _ W3) as R3. pose proof (word_range _ _ _ W4) as R4.
  assert (Hstart : Layout.numStart f = Some (12 + a1 + a2 + pad)).
  { unfold Layout.numStart, Layout.field. cbn [Nat.mul Nat.add].
    rewrite F1, F2. simpl. by rewrite Hpad. }
  destruct (wrap16_double_nat a3 L3) as (m3 & Hm3 & Em3).
  destruct (wrap16_double_nat a4 L4) as (m4 & Hm4 & Em4).
  pose proof (sliceOf_Ok _ _ _ _ Hnb) as (_ & _ & _ & _ & Ln).
  pose proof (sliceOf_Ok _ _ _ _ Hsb) as (_ & _ & _ & _ & Ls).
  replace (length nbuf) with (2 * m3)%nat in Hnum by lia.
  replace (length sbuf) with (2 * m4)%nat in Hstr by lia.
  rewrite evens_double in Hnum, Hstr.
  apply numLoop_spec in Hnum as (_ & _ & HS3 & Hin & _ & Hpos).
  apply strLoop_absent in Hstr as (_ & _ & HN4 & Habs).
  rewrite HN4. split; [|split].
  - intros j v Hj. unfold Layout.numSlot, Layout.field in Hj.
    rewrite Hstart in Hj. cbn [Nat.mul Nat.add] in Hj. rewrite F3 in Hj. simpl in Hj.
    case_bool_decide as Hlt; [|done].
    specialize (Em3 ltac:(lia)).
    destruct (Hin j ltac:(lia)) as (w & Hw & Hl).
    pose proof (word_lt _ _ _ Hw) as Hwl.
    rewrite (word_slice _ _ _ _ _ Hnb Hwl) in Hw.
    apply word_take_Some in Hw.
    replace (j + (j + 0))%nat with (2 * j)%nat in Hj by lia.
    rewrite Hw in Hj. injection Hj as ->.
    rewrite Hl, N0, lookup_empty.
    split; intros Hv; case_bool_decide; done || lia.
  - intros k v Hk. destruct (Hpos k v Hk) as [Hk'|]; [|done].
    by rewrite N0, lookup_empty in Hk'.
  - intros j off Hj Hoff. unfold Layout.strSlot, Layout.field in Hj.
    rewrite Hstart in Hj. cbn [Nat.mul Nat.add] in Hj. rewrite F3, F4 in Hj. simpl in Hj.
    case_bool_decide as Hlt; [|done]. destruct Hlt as [Hn Hlt].
    specialize (Em3 ltac:(lia)). specialize (Em4 ltac:(lia)).
    replace (j + (j + 0))%nat with (2 * j)%nat in Hj by lia.
    assert (Hwl : (S (2 * j) < length sbuf)%nat) by lia.
    assert (Hw : Layout.word sbuf (2 * j) = Some off).
    { rewrite (word_slice _ _ _ _ _ Hsb Hwl).
      rewrite word_take.
      - rewrite <- Hj. f_equal. lia.
      - apply sliceOf_Ok in Hsb as (? & ? & Hle & _ & _).
        rewrite length_take in Hle. lia. }
    rewrite (Habs j off Hw Hoff), HS3, S0. apply lookup_empty.
Qed.

(** At [sampleFile], [read] returns no error and the theorem gives the
    entries of the two numeric slots and of the absent string slot. *)
Lemma read_sentinel_absent_witness :
  ∃ r', read New sampleFile = Ok (r', None)
        ∧ NumericCaps (ti r') !! 0 = Some 80
        ∧ NumericCaps (ti r') !! 1 = None
        ∧ StringCaps (ti r') !! 1 = None.
Proof.
  destruct (read New sampleFile) as [[r' [e|]]| |] eqn:E;
    try (vm_compute in E; discriminate).
  exists r'. split; [reflexivity|].
  destruct (read_sentinel_absent New r' sampleFile E) as (Hn & _ & Hs).
  split; [|split].
  - apply (Hn 0%nat 80); [vm_compute; reflexivity | lia].
  - apply (Hn 1%nat (-1)); [vm_compute; reflexivity | lia].
  - apply (Hs 1%nat (-1)); [vm_compute; reflexivity | lia].
Defined.

(** C5 (the code departs from the claim). A file of 8 bytes is shorter
    than the 12-byte header, and a 15-byte file whose header declares 10
    numeric words (20 bytes) is shorter than its declared length; the
    reader returns [ErrSmallFile] for neither: [readHeader] compares the
    size with [len(r.h)], 6, and [lenFile] adds the word counts
    undoubled, so both runs go on and panic on an index out of range. *)
Theorem readHeader_small_file_missed :
  decode (bytes [0; 0; 0; 0; 0; 0; 0; 0]) = Panic
  ∧ decode (bytes [26; 1; 0; 0; 0; 0; 10; 0; 0; 0; 0; 0; 0; 0; 0]) = Panic.
Proof. split; vm_compute; reflexivity. Qed.

(** C9 (the code departs from the claim). With a string offset at the
    end of the table (offset 0 in an empty table, offset 1 in a table of
    one byte) the scan reads [table[x]] before any bound is checked: the
    reader panics instead of returning [ErrBadString]; an offset inside a
    table without a NUL does return [ErrBadString]. *)
Theorem readStrings_offset_at_end_panics :
  decode (bytes [26; 1; 0; 0; 0; 0; 0; 0; 1; 0; 0; 0; 0; 0]) = Panic
  ∧ decode (bytes [26; 1; 0; 0; 0; 0; 0; 0; 1; 0; 1; 0; 1; 0; 97]) = Panic
  ∧ decode (bytes [26; 1; 0; 0; 0; 0; 0; 0; 1; 0; 1; 0; 0; 0; 97]) = Ok (inl ErrBadString).
Proof. repeat split; vm_compute; reflexivity. Qed.

End ReaderFacts.

(** ** Loops and strings *)


Lemma forEach_inv {A S : Type} (P : S → Prop) (body : S → A → outcome S)
    (l : list A) (st st' : S) :
  (∀ s a s', a ∈ l → P s → body s a = Ok s' → P s') →
  P st → forEach body st l = Ok st' → P st'.
Proof.
  revert st. induction l as [|x l IH]; intros st Hstep HP H.
  - simpl in H. by simplify_eq.
  - simpl in H. inv_bind H as st1 H1.
    apply (IH st1); [| |done].
    + intros s a s' Ha. apply Hstep. by right.
    + apply (Hstep st x); [by left|done..].
Qed.

Lemma occurs_app (c : ascii) (a b : string) :
  occurs c (a +:+ b) = occurs c a || occurs c b.
Proof.
  induction a as [|x a IH]; [done|].
  change (String x a +:+ b) with (String x (a +:+ b)). simpl.
  rewrite IH. by rewrite orb_assoc.
Qed.







Lemma Split_nonempty (sep : ascii) (s : string) : Go.Split sep s ≠ [].
Proof.
  destruct s as [|c s]; simpl; [done|].
  case_decide; [done|]. by destruct (Go.Split sep s).
Qed.



(** ** The source parser *)

Section ParserFacts.

Variable cat : Catalog.



Lemma sameModels_flush (s s' : PState) : sameModels s s' → flush s' = flush s.
Proof. intros (Ht & Hi & _). unfold flush. by rewrite Ht, Hi. Qed.

Lemma stepEsc_frame (s s' : PState) (c : ascii) (rest : string) (k : nat) :
  stepEsc s c rest = Ok (s', k) →
  sameModels s s' ∧ esc s' = esc s ∧ capName s' = capName s.
Proof.
  unfold stepEsc. intros H.
  destruct rest as [|d1 [|d2 rest]];
    repeat (case_bool_decide || case_decide);
    repeat match type of H with context [isOctal ?x] => destruct (isOctal x) end;
    simpl in H; simplify_eq; by repeat split.
Qed.

(** A byte other than a comma changes no model, no table and no log. *)
Lemma stepChar_no_comma (s s' : PState) (c : ascii) (rest : string) (k : nat) :
  c ≠ ","%char → stepChar cat s c rest = Ok (s', k) → sameModels s s'.
Proof.
  intros Hc H. unfold stepChar in H. destruct (esc s) eqn:E.
  - repeat case_decide; simplify_eq; by repeat split.
  - repeat case_decide; simplify_eq; by repeat split.
  - repeat case_decide; simplify_eq; by repeat split.
  - simplify_eq. by repeat split.
  - inv_bind H as [s1 k1] H1. simplify_eq.
    apply stepEsc_frame in H1 as (H1 & _). destruct H1 as (?&?&?&?&?&?&?&?&?).
    by repeat split.
Qed.







(** The three cases of [parseLine]. *)
Lemma parseLine_kind (s : PState) (line : string) :
  parseLine cat s line =
    match lineKind line with
    | Ignored => Ok s
    | Header =>
        Ok (set_ti (Some (newTerminfo (Go.Split "|" (hd "" (Go.Split "," line)))))
              (set_tis (flush s) s))
    | Continuation => scanChars cat 0 s (Go.TrimSpace line)
    end.
Proof.
  unfold parseLine, lineKind.
  destruct (Go.HasPrefix line "#" || bool_decide (Go.TrimSpace line = "")) eqn:E; [done|].
  destruct line as [|c0 line].
  - by rewrite orb_true_r in E.
  - by destruct (Go.IsSpace c0).
Qed.



Lemma parseDigits_error (base : Z) (s : string) (n0 n : Z) (e : Go.NumError) :
  Go.parseDigits base n0 s = (n, Some e) →
  (e = Go.ErrSyntax ∧ n = 0) ∨ (e = Go.ErrRange ∧ n = 4294967295).
Proof.
  revert n0. induction s as [|c s IH]; intros n0 H; simpl in H; [done|].
  destruct (Go.digitOf c) as [d|]; [|simplify_eq; by left].
  repeat case_bool_decide; simplify_eq; try (by left); try (by right).
  by apply (IH _ H).
Qed.

Lemma ParseUint_error (s : string) (base n : Z) (e : Go.NumError) :
  Go.ParseUint s base = (n, Some e) →
  (e = Go.ErrSyntax ∧ n = 0) ∨ (e = Go.ErrRange ∧ n = 4294967295).
Proof.
  unfold Go.ParseUint. destruct s; [intros; simplify_eq; by left|].
  apply parseDigits_error.
Qed.

(** C3, as amended. When the text of a numeric capability does not parse,
    [addCap] logs the invalid number and goes on: the value [ParseUint]
    returned with its error (0 for a malformed literal, 2^32-1 for one out
    of range) is stored under the pending name, at its standard index or at
    an extended one, and the machine is back in [GROUND] with an empty
    accumulator and no pending name. *)
Theorem invalid_number_logged_and_stored (s : PState) (t : Terminfo)
    (n : Z) (e : Go.NumError) :
  ti s = Some t →
  Go.ParseUint (numBase (buf s)).2 (numBase (buf s)).1 = (n, Some e) →
  ∃ s' t',
    addCap cat "num" s = Ok s' ∧ ti s' = Some t'
    ∧ logs s' = logs s ++ [InvalidNumber (numBase (buf s)).2]
    ∧ ((e = Go.ErrSyntax ∧ n = 0) ∨ (e = Go.ErrRange ∧ n = 4294967295))
    ∧ match numNameCaps cat !! capName s with
      | Some cap => Nums t' !! cap = Some n
      | None => ∃ idx, ExtNumNames t' !! idx = Some (capName s)
                       ∧ ExtNums t' !! idx = Some n
      end
    ∧ esc s' = GROUND ∧ buf s' = "" ∧ capName s' = "" ∧ tis s' = tis s.
Proof.
  intros Ht Hp. pose proof (ParseUint_error _ _ _ _ Hp) as He.
  unfold addCap, addCapNum. rewrite decide_False by done. rewrite decide_True by done.
  destruct (numBase (buf s)) as [base value]. simpl in Hp. rewrite Hp.
  cbn [fst snd]. unfold onTi. cbn [logf ti capName newExtNum extNumNameCaps].
  rewrite Ht.
  destruct (numNameCaps cat !! capName s) as [cap|] eqn:Ec.
  - eexists _, _. simpl. split; [reflexivity|]. split; [reflexivity|].
    split; [reflexivity|]. split; [exact He|].
    split; [apply lookup_insert_eq|]. done.
  - destruct (extNumNameCaps s !! capName s) as [cap|] eqn:Ex.
    + eexists _, _. simpl. split; [reflexivity|]. split; [reflexivity|].
      split; [reflexivity|]. split; [exact He|].
      split; [|done]. exists cap. split; apply lookup_insert_eq.
    + eexists _, _. simpl. split; [reflexivity|]. split; [reflexivity|].
      split; [reflexivity|]. split; [exact He|].
      split; [|done]. exists (extNumIdx s). split; apply lookup_insert_eq.
Qed.

End ParserFacts.


(** C3 as stated fails: both numbers of [badNumberSource] are stored, with
    the value 0, and two diagnostics are logged. *)
Lemma invalid_number_not_dropped :
  ∃ b t, Parse sampleCatalog 1 badNumberSource = Ok b
         ∧ b.1 !! 0%nat = Some t
         ∧ Nums t !! 0 = Some 0
         ∧ ExtNumNames t !! 0 = Some "xx" ∧ ExtNums t !! 0 = Some 0
         ∧ b.2 = [InvalidNumber "zz"; InvalidNumber "-1"].
Proof.
  eexists _, _. split; [vm_compute; reflexivity|].
  split; [reflexivity|]. repeat split; vm_compute; reflexivity.
Qed.

Lemma invalid_number_logged_and_stored_witness :
  ∃ s' t', addCap sampleCatalog "num" badNumberState = Ok s'
           ∧ ti s' = Some t'
           ∧ logs s' = [InvalidNumber "zz"]
           ∧ Nums t' !! 0 = Some 0.
Proof.
  destruct (invalid_number_logged_and_stored sampleCatalog badNumberState
              (newTerminfo ["a"]) 0 Go.ErrSyntax eq_refl eq_refl)
    as (s' & t' & H1 & H2 & H3 & _ & H5 & _).
  exists s', t'. repeat split; [exact H1 | exact H2 | exact H3 | exact H5].
Defined.

(** ** The use resolver *)

Lemma collect_union {A : Type} (dst src : gmap Z A) : collect dst src = dst ∪ src.
Proof.
  unfold collect.
  apply (map_fold_weak_ind (λ r m, r = dst ∪ m)).
  - apply map_eq. intros k. rewrite lookup_union, lookup_empty. by destruct (dst !! k).
  - intros k v m r Hk ->.
    destruct ((dst ∪ m) !! k) as [w|] eqn:E.
    + apply map_eq. intros k'. rewrite !lookup_union.
      destruct (decide (k' = k)) as [->|Hne].
      * rewrite lookup_union, Hk in E. rewrite lookup_insert_eq, Hk.
        destruct (dst !! k); [done|]. by cbv in E.
      * by rewrite lookup_insert_ne.
    + apply lookup_union_None in E as [Hd _]. by rewrite insert_union_r.
Qed.

Lemma collect_kept {A : Type} (dst src : gmap Z A) : dst ⊆ collect dst src.
Proof. rewrite collect_union. apply map_union_subseteq_l. Qed.

Lemma capsKept_refl (t : Terminfo) : capsKept t t.
Proof. by repeat split. Qed.

Lemma capsKept_trans (t1 t2 t3 : Terminfo) :
  capsKept t1 t2 → capsKept t2 t3 → capsKept t1 t3.
Proof.
  unfold capsKept. intros (?&?&?&?&?&?&?&?&?) (?&?&?&?&?&?&?&?&?).
  repeat split; by etrans.
Qed.

Lemma collectCaps_kept (t u : Terminfo) : capsKept t (collectCaps t u).
Proof. repeat split; apply collect_kept. Qed.

Lemma shape_insert (l : list Terminfo) (i : nat) (t t' : Terminfo) :
  l !! i = Some t → Names t' = Names t → Uses t' = Uses t →
  shape (<[i := t']> l) = shape l.
Proof.
  intros Hi HN HU. unfold shape.
  change (map ?f ?x) with (f <$> x).
  rewrite list_fmap_insert, HN, HU.
  apply list_insert_id. by rewrite list_lookup_fmap, Hi.
Qed.

Lemma shape_lookup (l l' : list Terminfo) (i : nat) (t : Terminfo) :
  shape l' = shape l → l !! i = Some t →
  ∃ t', l' !! i = Some t' ∧ Names t' = Names t ∧ Uses t' = Uses t.
Proof.
  intros Hs Hi. unfold shape in Hs.
  assert (H : (map (λ t, (Names t, Uses t)) l') !! i = Some (Names t, Uses t)).
  { rewrite Hs. change (map ?f ?x) with (f <$> x). by rewrite list_lookup_fmap, Hi. }
  change (map ?f ?x) with (f <$> x) in H. rewrite list_lookup_fmap in H.
  destruct (l' !! i) as [t'|]; [|done]. simpl in H. exists t'. by simplify_eq.
Qed.

Lemma findTerminfo_shape (l l' : list Terminfo) (name : string) :
  shape l' = shape l → findTerminfo l' name = findTerminfo l name.
Proof.
  revert l'. induction l as [|t l IH]; intros [|t' l'] H; try done.
  unfold shape in H. simpl in H. injection H as HN HU Hs.
  simpl. rewrite HN. case_bool_decide; [done|]. by rewrite (IH l').
Qed.

Lemma resolved_refl (i : nat) (b : Batch) : resolved i b b.
Proof.
  repeat split; try done. intros t Ht. exists t. split; [done|apply capsKept_refl].
Qed.

Lemma resolved_trans (i : nat) (b1 b2 b3 : Batch) :
  resolved i b1 b2 → resolved i b2 b3 → resolved i b1 b3.
Proof.
  intros (S1 & O1 & K1) (S2 & O2 & K2). split; [|split].
  - by rewrite S2.
  - intros j Hj. by rewrite O2, O1.
  - intros t Ht. destruct (K1 t Ht) as (t2 & Ht2 & Hk2).
    destruct (K2 t2 Ht2) as (t3 & Ht3 & Hk3).
    exists t3. split; [done|]. by apply (capsKept_trans _ t2).
Qed.

Lemma forEach_resolved {A : Type} (i : nat) (body : Batch → A → outcome Batch)
    (l : list A) (b b' : Batch) :
  (∀ b1 a b2, a ∈ l → body b1 a = Ok b2 → resolved i b1 b2) →
  forEach body b l = Ok b' → resolved i b b'.
Proof.
  intros Hbody H.
  apply (forEach_inv (λ b1, resolved i b b1) body l b b'); [|apply resolved_refl|done].
  intros b1 a b2 Ha Hb1 Hb2. apply (resolved_trans _ _ b1); [done|].
  by apply (Hbody _ a).
Qed.

Lemma resolveUses_resolved (fuel : nat) (b b' : Batch) (i : nat) (use : string) :
  resolveUses fuel b i use = Ok b' → resolved i b b'.
Proof.
  revert b b' use. induction fuel as [|fuel IH]; intros b b' use H; [done|].
  simpl in H. destruct (b.1 !! i) as [t0|] eqn:Ei; [|done].
  destruct (findTerminfo b.1 use) as [j|] eqn:Ef.
  - destruct (b.1 !! j) as [u0|] eqn:Ej; [|done].
    inv_bind H as b1 Hloop.
    apply forEach_resolved with (i := i) in Hloop; [|intros ? ? ? _; apply IH].
    destruct (b1.1 !! i) as [t|] eqn:Ei1; [|done].
    destruct (b1.1 !! j) as [u|] eqn:Ej1; [|done].
    injection H as <-.
    apply (resolved_trans _ _ b1); [done|].
    split; [|split]; simpl.
    + by apply (shape_insert _ _ t).
    + intros k Hk. by apply list_lookup_insert_ne.
    + intros t1 Ht1. rewrite Ei1 in Ht1. injection Ht1 as <-.
      exists (collectCaps t u). split.
      * apply list_lookup_insert_eq. by apply lookup_lt_Some in Ei1.
      * apply collectCaps_kept.
  - injection H as <-. split; [done|]. split; [done|].
    intros t Ht. exists t. split; [done|apply capsKept_refl].
Qed.

(** C7. Merging a use reference into the model at [i] keeps every value
    the model held before, at every index of the nine capability maps: an
    extended capability keeps its name and its value at its index, and no
    other model of the batch changes. *)
Theorem resolveUses_first_definition_wins (fuel : nat) (b b' : Batch) (i : nat)
    (use : string) (t : Terminfo) :
  resolveUses fuel b i use = Ok b' → b.1 !! i = Some t →
  ∃ t', b'.1 !! i = Some t'
        ∧ capsKept t t'
        ∧ (∀ k v, Bools t !! k = Some v → Bools t' !! k = Some v)
        ∧ (∀ k v, Nums t !! k = Some v → Nums t' !! k = Some v)
        ∧ (∀ k v, Strings t !! k = Some v → Strings t' !! k = Some v)
        ∧ (∀ k n v, ExtBoolNames t !! k = Some n → ExtBools t !! k = Some v →
             ExtBoolNames t' !! k = Some n ∧ ExtBools t' !! k = Some v)
        ∧ (∀ k n v, ExtNumNames t !! k = Some n → ExtNums t !! k = Some v →
             ExtNumNames t' !! k = Some n ∧ ExtNums t' !! k = Some v)
        ∧ (∀ k n v, ExtStringNames t !! k = Some n → ExtStrings t !! k = Some v →
             ExtStringNames t' !! k = Some n ∧ ExtStrings t' !! k = Some v)
        ∧ (∀ j, j ≠ i → b'.1 !! j = b.1 !! j).
Proof.
  intros H Ht. apply resolveUses_resolved in H as (_ & Ho & Hk).
  destruct (Hk t Ht) as (t' & Ht' & Hc). exists t'.
  split; [done|]. split; [done|].
  destruct Hc as (B & N & S & EB & EN & ES & EBN & ENN & ESN).
  repeat split; try done;
    intros; eapply lookup_weaken; eauto.
Qed.

(** At [sampleBatch], merging [B] into [A] leaves [A]'s number 0 at 7. *)
Lemma resolveUses_first_definition_wins_witness :
  ∃ b' t', resolveUses 1 sampleBatch 1 "B" = Ok b'
           ∧ b'.1 !! 1%nat = Some t' ∧ Nums t' !! 0 = Some 7.
Proof.
  destruct (resolveUses 1 sampleBatch 1 "B") as [b'| |] eqn:E;
    try (vm_compute in E; discriminate).
  destruct (resolveUses_first_definition_wins 1 sampleBatch b' 1 "B"
              (set_Uses ["B"] (set_Nums {[ 0 := 7 ]} (newTerminfo ["A"]))) E eq_refl)
    as (t' & Ht' & _ & _ & HN & _).
  exists b', t'. split; [reflexivity|]. split; [exact Ht'|].
  apply HN. reflexivity.
Defined.

Lemma resolveAll_shape (fuel : nat) (b b' : Batch) :
  resolveAll fuel b = Ok b' →
  shape b'.1 = shape b.1
  ∧ ∀ i t, b.1 !! i = Some t → ∃ t', b'.1 !! i = Some t' ∧ capsKept t t'.
Proof.
  unfold resolveAll. intros H.
  apply (forEach_inv
           (λ b1, shape b1.1 = shape b.1
                  ∧ ∀ i t, b.1 !! i = Some t → ∃ t', b1.1 !! i = Some t' ∧ capsKept t t'))
    in H; [done| |].
  - intros b1 i b2 _ [Hs Hk] Hb.
    destruct (b1.1 !! i) as [t|] eqn:Ei; [|done].
    apply forEach_resolved with (i := i) in Hb;
      [|intros ? ? ? _; apply resolveUses_resolved].
    destruct Hb as (Hs2 & Ho2 & Hk2). split; [by rewrite Hs2|].
    intros j t1 Ht1. destruct (Hk j t1 Ht1) as (t2 & Ht2 & Hc2).
    destruct (decide (j = i)) as [->|Hne].
    + destruct (Hk2 t2 Ht2) as (t3 & Ht3 & Hc3). exists t3. split; [done|].
      by apply (capsKept_trans _ t2).
    + exists t2. by rewrite Ho2.
  - split; [done|]. intros i t Ht. exists t. split; [done|apply capsKept_refl].
Qed.

(** C6, as amended. Resolution reads the use references and leaves them
    in place: every model [Parse] returns has the names and the [Uses] list
    the first loop recorded for it. *)
Theorem Parse_keeps_Uses (cat : Catalog) (fuel : nat) (src : string) (b : Batch) :
  Parse cat fuel src = Ok b →
  ∃ s, scan cat src = Ok s
       ∧ map Uses b.1 = map Uses (flush s)
       ∧ map Names b.1 = map Names (flush s).
Proof.
  unfold Parse. intros H. inv_bind H as s Hs. exists s. split; [done|].
  apply resolveAll_shape in H as [Hsh _]. simpl in Hsh. unfold shape in Hsh.
  split.
  - apply (f_equal (map snd)) in Hsh. by rewrite !map_map in Hsh.
  - apply (f_equal (map fst)) in Hsh. by rewrite !map_map in Hsh.
Qed.

Lemma Parse_keeps_Uses_witness :
  ∃ b, Parse sampleCatalog 2 useSource = Ok b ∧ map Uses b.1 = [["b"]; []].
Proof.
  destruct (Parse sampleCatalog 2 useSource) as [b| |] eqn:E;
    try (vm_compute in E; discriminate).
  destruct (Parse_keeps_Uses sampleCatalog 2 useSource b E) as (s & Hs & HU & _).
  exists b. split; [reflexivity|]. rewrite HU.
  assert (Hs' : scan sampleCatalog useSource = Ok s) by exact Hs.
  vm_compute in Hs'. injection Hs' as <-. reflexivity.
Defined.

(** C6 as stated fails: after [Parse], the first model of [useSource]
    still lists its use reference. *)
Lemma Uses_not_cleared :
  ∃ b t, Parse sampleCatalog 2 useSource = Ok b
         ∧ b.1 !! 0%nat = Some t ∧ Uses t = ["b"]
         ∧ Bools t !! 1 = Some true.
Proof.
  eexists _, _. split; [vm_compute; reflexivity|].
  split; [reflexivity|]. split; vm_compute; reflexivity.
Qed.

(** C1 (the code departs from the claim). In [chainSource], [A] uses [B]
    and [B] uses [C]; [B] defines [cols] as 2 and [C] as 1.  [resolveUses]
    recurses into the references of [B] with [A] as the target, so [C] is
    merged into [A] before [B] is: [A] ends with the value of [C], 1,
    while [B] itself keeps 2. *)
Theorem chain_takes_deepest_value :
  ∃ b tc tb ta, Parse sampleCatalog 3 chainSource = Ok b
                ∧ b.1 = [tc; tb; ta]
                ∧ Names ta = ["A"] ∧ Names tb = ["B"] ∧ Names tc = ["C"]
                ∧ Nums tc !! 0 = Some 1
                ∧ Nums tb !! 0 = Some 2
                ∧ Nums ta !! 0 = Some 1.
Proof.
  eexists _, _, _, _. split; [vm_compute; reflexivity|].
  split; [reflexivity|]. repeat split; vm_compute; reflexivity.
Qed.

(** ** When [Parse] returns *)

Lemma forEach_returns {A S : Type} (P : S → Prop) (body : S → A → outcome S)
    (l : list A) (st : S) :
  P st → (∀ s a, a ∈ l → P s → ∃ s', body s a = Ok s' ∧ P s') →
  ∃ st', forEach body st l = Ok st' ∧ P st'.
Proof.
  revert st. induction l as [|x l IH]; intros st HP Hbody.
  - exists st. by split.
  - destruct (Hbody st x ltac:(by left) HP) as (s1 & H1 & HP1).
    destruct (IH s1 HP1) as (st' & H' & HP').
    + intros s a Ha. apply Hbody. by right.
    + exists st'. split; [|done]. simpl. by rewrite H1.
Qed.

Lemma findTerminfo_Some (l : list Terminfo) (name : string) (j : nat) :
  findTerminfo l name = Some j → ∃ u, l !! j = Some u ∧ name ∈ Names u.
Proof.
  revert j. induction l as [|t l IH]; intros j H; [done|].
  simpl in H. case_bool_decide as Hn.
  - injection H as <-. by exists t.
  - destruct (findTerminfo l name) as [k|]; [|done]. injection H as <-.
    by apply IH.
Qed.

Lemma shape_length (l l' : list Terminfo) : shape l' = shape l → length l' = length l.
Proof.
  intros H. apply (f_equal length) in H. unfold shape in H.
  by rewrite !length_map in H.
Qed.

Lemma usesRanked_shape (rank : nat → nat) (l l' : list Terminfo) :
  shape l' = shape l → usesRanked rank l → usesRanked rank l'.
Proof.
  intros Hs Hr j t u k Hj Hu Hf.
  destruct (shape_lookup l' l j t (eq_sym Hs) Hj) as (t0 & Ht0 & HN & HU).
  apply (Hr j t0 u k); [done| |].
  - by rewrite HU.
  - by rewrite <- (findTerminfo_shape l l' u Hs).
Qed.

(** With fuel above the rank of the model a reference resolves to,
    [resolveUses] returns. *)
Lemma resolveUses_returns (rank : nat → nat) (fuel : nat) (b : Batch) (i : nat)
    (use : string) :
  usesRanked rank b.1 → (i < length b.1)%nat → (1 ≤ fuel)%nat →
  (∀ j, findTerminfo b.1 use = Some j → (rank j + 2 ≤ fuel)%nat) →
  ∃ b', resolveUses fuel b i use = Ok b'.
Proof.
  revert b use. induction fuel as [|fuel IH]; intros b use Hr Hi H1 Hf; [lia|].
  simpl. destruct (lookup_lt_is_Some_2 _ _ Hi) as [t0 Et0]. rewrite Et0.
  destruct (findTerminfo b.1 use) as [j|] eqn:Ef; [|by eexists].
  destruct (findTerminfo_Some _ _ _ Ef) as (u0 & Eu0 & _). rewrite Eu0.
  specialize (Hf j eq_refl).
  destruct (forEach_returns (λ b1 : Batch, shape b1.1 = shape b.1)
              (λ (b1 : Batch) uu, resolveUses fuel b1 i uu) (Uses u0) b eq_refl)
    as (b1 & Hloop & Hs1).
  { intros b1 uu Huu Hs.
    destruct (IH b1 uu) as [b2 Hb2].
    - by apply (usesRanked_shape rank b.1).
    - by rewrite (shape_length _ _ Hs).
    - lia.
    - intros k Hk. rewrite (findTerminfo_shape _ _ _ Hs) in Hk.
      pose proof (Hr j u0 uu k Eu0 Huu Hk). lia.
    - exists b2. split; [done|].
      apply resolveUses_resolved in Hb2 as (Hs2 & _). by rewrite Hs2. }
  rewrite Hloop. simpl.
  destruct (shape_lookup _ _ _ _ Hs1 Et0) as (t & -> & _).
  destruct (shape_lookup _ _ _ _ Hs1 Eu0) as (u & -> & _).
  by eexists.
Qed.

Lemma resolveAll_returns (rank : nat → nat) (fuel : nat) (b : Batch) :
  usesRanked rank b.1 →
  (∀ j, (j < length b.1)%nat → (rank j + 2 ≤ fuel)%nat) →
  ∃ b', resolveAll fuel b = Ok b'.
Proof.
  intros Hr Hf. unfold resolveAll.
  destruct (forEach_returns (λ b1 : Batch, shape b1.1 = shape b.1)
              (λ (b1 : Batch) i, match b1.1 !! i with
                       | None => Panic
                       | Some t => forEach (λ b2 use, resolveUses fuel b2 i use) b1 (Uses t)
                       end)
              (seq 0 (length b.1)) b eq_refl) as (b' & H & _); [|by exists b'].
  intros b1 i Hi Hs. apply elem_of_seq in Hi as [_ Hi]. simpl in Hi.
  assert (Hi1 : (i < length b1.1)%nat) by by rewrite (shape_length _ _ Hs).
  destruct (lookup_lt_is_Some_2 _ _ Hi1) as [t Et]. rewrite Et.
  destruct (forEach_returns (λ b2 : Batch, shape b2.1 = shape b.1)
              (λ (b2 : Batch) use, resolveUses fuel b2 i use) (Uses t) b1 Hs)
    as (b2 & H2 & Hs2); [|by exists b2].
  intros b2 use _ Hs2.
  destruct (resolveUses_returns rank fuel b2 i use) as [b3 Hb3].
  - by apply (usesRanked_shape rank b.1).
  - by rewrite (shape_length _ _ Hs2).
  - specialize (Hf i Hi). lia.
  - intros k Hk. apply findTerminfo_Some in Hk as (u & Hu & _).
    apply lookup_lt_Some in Hu. rewrite (shape_length _ _ Hs2) in Hu. by apply Hf.
  - exists b3. split; [done|].
    apply resolveUses_resolved in Hb3 as (Hs3 & _). by rewrite Hs3.
Qed.

Section ScanReturns.

Variable cat : Catalog.

Lemma onTi_returns (f : Terminfo → Terminfo) (s : PState) :
  is_Some (ti s) → ∃ s', onTi f s = Ok s' ∧ is_Some (ti s').
Proof. intros [t Ht]. unfold onTi. rewrite Ht. eexists. split; [done|]. by eexists. Qed.

Lemma bind_returns {A B : Type} (m : outcome A) (k : A → outcome B)
    (P : A → Prop) (Q : B → Prop) :
  (∃ a, m = Ok a ∧ P a) → (∀ a, P a → ∃ b, k a = Ok b ∧ Q b) →
  ∃ b, m ≫= k = Ok b ∧ Q b.
Proof. intros (a & -> & Ha) Hk. simpl. by apply Hk. Qed.

Lemma addCap_returns (typ : string) (s : PState) :
  typ = "bool" ∨ typ = "num" ∨ typ = "str" → is_Some (ti s) →
  ∃ s', addCap cat typ s = Ok s' ∧ is_Some (ti s') ∧ esc s' = GROUND.
Proof.
  intros Htyp Hti. unfold addCap.
  apply (bind_returns _ _ (λ s1, is_Some (ti s1))); [|intros s1 Hs1; by eexists].
  destruct Htyp as [->|[->| ->]].
  - rewrite decide_True by done. unfold addCapBool.
    repeat case_match; by apply onTi_returns.
  - rewrite decide_False by done. rewrite decide_True by done. unfold addCapNum.
    destruct (numBase (buf s)) as [base value].
    destruct (Go.ParseUint value base) as [n err].
    apply (bind_returns _ _ (λ s1, is_Some (ti s1))); [|intros s1 Hs1; by eexists].
    repeat case_match; by apply onTi_returns.
  - rewrite decide_False by done. rewrite decide_False by done.
    rewrite decide_True by done. unfold addCapStr.
    apply (bind_returns _ _ (λ s1, is_Some (ti s1))); [|intros s1 Hs1; by eexists].
    repeat (case_decide || case_match); by apply onTi_returns.
Qed.

Lemma stepEsc_returns (s : PState) (c : ascii) (rest : string) :
  c ≠ "l"%char → is_Some (ti s) →
  ∃ s' k, stepEsc s c rest = Ok (s', k) ∧ is_Some (ti s').
Proof.
  intros Hc Hti. unfold stepEsc.
  destruct rest as [|d1 [|d2 rest]];
    repeat (case_bool_decide || case_decide);
    repeat match goal with |- context [isOctal ?x] => destruct (isOctal x) end;
    simpl; try done; by eexists _, _.
Qed.

(** One turn of the character loop returns unless it reads [l] in [ESC]
    or finalizes a capability with no entry; only a backslash read in
    [NONE] leads to [ESC]. *)
Lemma stepChar_returns (s : PState) (c : ascii) (rest : string) :
  is_Some (ti s) → (esc s = ESC → c ≠ "l"%char) →
  ∃ s' k, stepChar cat s c rest = Ok (s', k) ∧ is_Some (ti s')
          ∧ (esc s' = ESC → c = "\"%char ∧ k = 0%nat).
Proof.
  intros Hti Hl. unfold stepChar. destruct (esc s) eqn:E.
  - repeat case_decide;
      try (simpl; eexists _, _; split; [reflexivity|]; split; [exact Hti|];
           simpl; rewrite ?E; done).
    destruct (addCap_returns "bool" s ltac:(auto) Hti) as (s1 & -> & Ht1 & Et1).
    simpl. eexists _, _. split; [done|]. split; [done|]. simpl. by rewrite Et1.
  - case_decide;
      [|simpl; eexists _, _; split; [reflexivity|]; split; [exact Hti|];
        simpl; rewrite ?E; done].
    destruct (addCap_returns "num" s ltac:(auto) Hti) as (s1 & -> & Ht1 & Et1).
    simpl. eexists _, _. by repeat split.
  - repeat case_decide;
      try (simpl; eexists _, _; split; [reflexivity|]; split; [exact Hti|];
           simpl; rewrite ?E; done).
    destruct (addCap_returns "str" s ltac:(auto) Hti) as (s1 & -> & Ht1 & Et1).
    simpl. eexists _, _. by repeat split.
  - simpl. eexists _, _. by repeat split.
  - destruct (stepEsc_returns s c rest (Hl eq_refl) Hti) as (s1 & k & -> & Ht1).
    simpl. eexists _, _. by repeat split.
Qed.

Lemma scanChars_returns (l : string) (skip : nat) (s : PState) :
  escSafe l = true → is_Some (ti s) →
  (esc s = ESC → skip = 0%nat ∧ ∃ c r, l = String c r ∧ c ≠ "l"%char) →
  ∃ s', scanChars cat skip s l = Ok s' ∧ is_Some (ti s') ∧ esc s' ≠ ESC.
Proof.
  revert skip s. induction l as [|c l IH]; intros skip s Hsafe Hti Hesc.
  - exists s. split; [done|]. split; [done|]. intros HE.
    by destruct (Hesc HE) as (_ & ? & ? & ? & _).
  - simpl in Hsafe. apply andb_true_iff in Hsafe as [Hc Hsafe].
    simpl. destruct skip as [|skip].
    + destruct (stepChar_returns s c l Hti) as (s1 & k & -> & H1 & E1).
      { intros HE. destruct (Hesc HE) as (_ & c' & r' & Heq & Hne). by simplify_eq. }
      simpl. apply IH; [done..|].
      intros HE. destruct (E1 HE) as [-> ->]. split; [done|].
      rewrite decide_True in Hc by done.
      destruct l as [|d l']; [done|]. exists d, l'. split; [done|].
      apply negb_true_iff, bool_decide_eq_false in Hc. done.
    + apply IH; [done..|]. intros HE. destruct (Hesc HE) as [? _]. lia.
Qed.

Lemma lines_return (lines : list string) (s : PState) :
  esc s ≠ ESC →
  (is_Some (ti s)
   ∨ match filter (λ l, lineKind l ≠ Ignored) lines with
     | [] => True
     | l :: _ => lineKind l = Header
     end) →
  Forall (λ l, escSafe l = true)
         (map Go.TrimSpace (filter (λ l, lineKind l = Continuation) lines)) →
  ∃ s', forEach (parseLine cat) s lines = Ok s'.
Proof.
  revert s. induction lines as [|line lines IH]; intros s Hesc Hti Hsafe.
  - by exists s.
  - simpl. rewrite parseLine_kind.
    rewrite !filter_cons in Hti. rewrite filter_cons in Hsafe.
    destruct (lineKind line) eqn:Ek.
    + simpl. rewrite decide_False in Hti by (intros ?; done).
      rewrite decide_False in Hsafe by done. by apply IH.
    + simpl. rewrite decide_False in Hsafe by done.
      apply IH; [done| |done]. left. by eexists.
    + rewrite decide_True in Hsafe by done. simpl in Hsafe.
      apply Forall_cons in Hsafe as [Hs1 Hsafe].
      rewrite decide_True in Hti by done.
      assert (Hti' : is_Some (ti s)).
      { destruct Hti as [?|Hh]; [done|]. simpl in Hh. congruence. }
      destruct (scanChars_returns (Go.TrimSpace line) 0 s Hs1 Hti')
        as (s1 & -> & H1 & E1); [done|].
      simpl. apply IH; [done| |done]. by left.
Qed.

End ScanReturns.

(** C4, as amended. [Parse] returns, with the entries in source order,
    on every input whose continuation lines have no backslash followed by
    [l] or by the end of the line, whose first line that is not ignored
    starts an entry, and whose use references have no cycle (fuel above
    the ranks); an [l] read in the [ESC] state makes it panic. *)
Theorem Parse_returns (cat : Catalog) :
  (∀ src, forallb escSafe (contTexts src) = true → headerFirst src = true →
     ∃ s, scan cat src = Ok s
          ∧ ∀ rank fuel,
              usesRanked rank (flush s) →
              (∀ j, (j < length (flush s))%nat → (rank j + 2 ≤ fuel)%nat) →
              ∃ b, Parse cat fuel src = Ok b
                   ∧ map Names b.1 = map Names (flush s))
  ∧ (∀ s rest, esc s = ESC → stepChar cat s "l" rest = Panic).
Proof.
  split.
  - intros src Hsafe Hhead.
    destruct (lines_return cat (Go.Split "010" src) initState) as [s Hs].
    + done.
    + right. unfold headerFirst in Hhead.
      destruct (filter _ _) as [|l ?]; [done|]. by apply bool_decide_eq_true in Hhead.
    + apply Forall_forall. intros l Hl.
      rewrite forallb_forall in Hsafe. apply Hsafe. by apply list_elem_of_In.
    + exists s. split; [done|]. intros rank fuel Hr Hf.
      destruct (resolveAll_returns rank fuel (flush s, logs s) Hr Hf) as [b Hb].
      exists b. unfold Parse, scan. rewrite Hs. simpl.
      split; [done|]. apply resolveAll_shape in Hb as [Hsh _].
      simpl in Hsh. unfold shape in Hsh.
      apply (f_equal (map fst)) in Hsh. by rewrite !map_map in Hsh.
  - intros s rest E. unfold stepChar. rewrite E. unfold stepEsc.
    destruct rest as [|d1 [|d2 rest]]; reflexivity.
Qed.

(** At [useSource], whose first entry uses the second. *)
Lemma Parse_returns_witness :
  ∃ b, Parse sampleCatalog 3 useSource = Ok b ∧ map Names b.1 = [["a"]; ["b"]].
Proof.
  destruct (proj1 (Parse_returns sampleCatalog) useSource eq_refl eq_refl)
    as (s & Hs & Hret).
  assert (Hs' : scan sampleCatalog useSource = Ok s) by exact Hs.
  vm_compute in Hs'. injection Hs' as <-.
  destruct (Hret (λ j, match j with O => 1%nat | _ => 0%nat end) 3%nat)
    as (b & Hb & HN).
  - intros j t u k Hj Hu Hf.
    destruct j as [|[|j]]; [| |done].
    + injection Hj as <-. apply list_elem_of_singleton in Hu as ->.
      vm_compute in Hf. injection Hf as <-. simpl. lia.
    + injection Hj as <-. by apply elem_of_nil in Hu.
  - intros j Hj. destruct j as [|[|j]]; simpl in *; lia.
  - exists b. split; [exact Hb|]. rewrite HN. reflexivity.
Defined.

(** C4 as stated fails: on [escLSource] the parser panics. *)
Lemma Parse_panics_on_esc_l :
  scan sampleCatalog escLSource = Panic
  ∧ ∀ fuel, Parse sampleCatalog fuel escLSource = Panic.
Proof.
  assert (H : scan sampleCatalog escLSource = Panic) by (vm_compute; reflexivity).
  split; [exact H|]. intros fuel. unfold Parse. by rewrite H.
Qed.

(** ** The indices of the extended capabilities *)









Lemma ExtInv_logf (d : Diag) (s : PState) : ExtInv s → ExtInv (logf d s).
Proof. intros H. exact H. Qed.

Section ExtFacts.

Variable cat : Catalog.











End ExtFacts.



(** * Further properties of the code *)

(** ** The registry and [findTerminfo] *)

Lemma foldl_insert_lookup (t : Terminfo) (names : list string)
    (tim : gmap string Terminfo) (n : string) :
  foldl (λ m n, <[n := t]> m) tim names !! n
  = if bool_decide (n ∈ names) then Some t else tim !! n.
Proof.
  revert tim. induction names as [|a names IH]; intros tim.
  - cbn [foldl]. case_bool_decide as Hin; [by apply elem_of_nil in Hin|done].
  - cbn [foldl]. rewrite IH. case_bool_decide as Hin; case_bool_decide as Hin'; try done.
    + exfalso. apply Hin'. by right.
    + apply elem_of_cons in Hin' as [->|?]; [|done]. apply lookup_insert_eq.
    + rewrite lookup_insert_ne; [done|]. intros ->. apply Hin'. by left.
Qed.

(** After [Set(ti)], [Find] returns [ti] for every alias of [ti] and what
    it returned before for every other name. *)
Theorem Set_then_Find (tim : gmap string Terminfo) (t : Terminfo) (n : string) :
  TerminfosFind (TerminfosSet tim t) n
  = if bool_decide (n ∈ Names t) then Some t else TerminfosFind tim n.
Proof. unfold TerminfosFind, TerminfosSet. apply foldl_insert_lookup. Qed.

Lemma NewTerminfos_snoc (tis : list Terminfo) (t : Terminfo) :
  NewTerminfos (tis ++ [t]) = TerminfosSet (NewTerminfos tis) t.
Proof. unfold NewTerminfos. by rewrite foldl_app. Qed.

(** [NewTerminfos] lets the last model that has an alias win: [Find]
    returns [t] exactly when [t] lists the name and no later model of the
    slice does; it returns nil exactly when no model lists the name. *)
Theorem NewTerminfos_last_wins (tis : list Terminfo) (name : string) :
  match TerminfosFind (NewTerminfos tis) name with
  | Some t => ∃ j, tis !! j = Some t ∧ name ∈ Names t
                   ∧ ∀ k t', (j < k)%nat → tis !! k = Some t' → name ∉ Names t'
  | None => ∀ t, t ∈ tis → name ∉ Names t
  end.
Proof.
  induction tis as [|t tis IH] using rev_ind.
  - simpl. unfold TerminfosFind, NewTerminfos. simpl. rewrite lookup_empty.
    intros t Ht. by apply elem_of_nil in Ht.
  - rewrite NewTerminfos_snoc. unfold TerminfosFind at 1, TerminfosSet.
    rewrite foldl_insert_lookup. fold (TerminfosFind (NewTerminfos tis) name).
    case_bool_decide as Hin.
    + exists (length tis). split; [by rewrite lookup_app_r, Nat.sub_diag by lia|].
      split; [done|]. intros k t' Hk Hl. apply lookup_lt_Some in Hl.
      rewrite length_app in Hl. simpl in Hl. lia.
    + destruct (TerminfosFind (NewTerminfos tis) name) as [u|].
      * destruct IH as (j & Hj & Hu & Hlast). exists j.
        split; [by apply lookup_app_l_Some|]. split; [done|].
        intros k t' Hk Hl. apply lookup_app_Some in Hl as [Hl|[Hge Hl]].
        -- by apply (Hlast k).
        -- destruct (k - length tis)%nat; simpl in Hl; [by simplify_eq|done].
      * intros u [Hu| ->%list_elem_of_singleton]%elem_of_app; [by apply IH|done].
Qed.

(** [findTerminfo] returns the first model of the batch that lists the
    name, and nil exactly when none does. *)
Theorem findTerminfo_first (tis : list Terminfo) (name : string) :
  match findTerminfo tis name with
  | Some j => ∃ t, tis !! j = Some t ∧ name ∈ Names t
                   ∧ ∀ k t', (k < j)%nat → tis !! k = Some t' → name ∉ Names t'
  | None => ∀ t, t ∈ tis → name ∉ Names t
  end.
Proof.
  induction tis as [|t tis IH].
  - simpl. intros t Ht. by apply elem_of_nil in Ht.
  - simpl. case_bool_decide as Hin.
    + exists t. split; [done|]. split; [done|]. intros k t' Hk. lia.
    + destruct (findTerminfo tis name) as [j|]; simpl.
      * destruct IH as (u & Hu & Hn & Hfirst). exists u.
        split; [done|]. split; [done|].
        intros [|k] t' Hk Hl; simpl in Hl; [by simplify_eq|].
        apply (Hfirst k); [lia|done].
      * intros u [->|Hu]%elem_of_cons; [done|by apply IH].
Qed.

(** ** More on the use resolver *)

Lemma forEach_id {A S : Type} (body : S → A → outcome S) (l : list A) (st : S) :
  (∀ a, a ∈ l → body st a = Ok st) → forEach body st l = Ok st.
Proof.
  induction l as [|x l IH]; intros H; [done|].
  simpl. rewrite H by (by left). simpl. apply IH. intros a Ha. apply H. by right.
Qed.

(** A reference to a model that has no references of its own: the model
    at [i] becomes, map by map, the union of its entries with those of the
    referenced model, its own entries taking precedence; an index it did
    not hold takes the referenced model's value. *)
Theorem resolveUses_merges_leaf (fuel : nat) (b : Batch) (i j : nat) (use : string)
    (t u : Terminfo) :
  b.1 !! i = Some t → findTerminfo b.1 use = Some j → b.1 !! j = Some u →
  Uses u = [] →
  ∃ t', resolveUses (S fuel) b i use = Ok (<[i := t']> b.1, b.2)
        ∧ Names t' = Names t ∧ Uses t' = Uses t
        ∧ Bools t' = Bools t ∪ Bools u ∧ Nums t' = Nums t ∪ Nums u
        ∧ Strings t' = Strings t ∪ Strings u
        ∧ ExtBools t' = ExtBools t ∪ ExtBools u ∧ ExtNums t' = ExtNums t ∪ ExtNums u
        ∧ ExtStrings t' = ExtStrings t ∪ ExtStrings u
        ∧ ExtBoolNames t' = ExtBoolNames t ∪ ExtBoolNames u
        ∧ ExtNumNames t' = ExtNumNames t ∪ ExtNumNames u
        ∧ ExtStringNames t' = ExtStringNames t ∪ ExtStringNames u
        ∧ (∀ k, Nums t !! k = None → Nums t' !! k = Nums u !! k).
Proof.
  intros Hi Hf Hj Hu. exists (collectCaps t u). split.
  - simpl. rewrite Hi, Hf, Hj, Hu. simpl. by rewrite Hi, Hj.
  - unfold collectCaps. simpl. rewrite !collect_union.
    repeat split. intros k Hk. rewrite lookup_union, Hk. by destruct (Nums u !! k).
Qed.

(** [A], which defines nothing, takes the number 0 of [B], 5. *)
Lemma resolveUses_merges_leaf_witness :
  ∃ t', resolveUses 1 ([set_Nums {[ 0 := 5 ]} (newTerminfo ["B"]);
                        newTerminfo ["A"]], []) 1 "B"
        = Ok (<[1%nat := t']> [set_Nums {[ 0 := 5 ]} (newTerminfo ["B"]);
                               newTerminfo ["A"]], [])
        ∧ Nums t' !! 0 = Some 5.
Proof.
  destruct (resolveUses_merges_leaf 0
              ([set_Nums {[ 0 := 5 ]} (newTerminfo ["B"]); newTerminfo ["A"]], [])
              1 0 "B" (newTerminfo ["A"]) (set_Nums {[ 0 := 5 ]} (newTerminfo ["B"]))
              eq_refl eq_refl eq_refl eq_refl)
    as (t' & H & _ & _ & _ & _ & _ & _ & _ & _ & _ & _ & _ & HN).
  exists t'. split; [exact H|]. rewrite HN; reflexivity.
Defined.

(** Resolving a batch none of whose models has a use reference changes
    nothing and logs nothing, whatever the fuel. *)
Theorem resolveAll_without_uses (fuel : nat) (b : Batch) :
  (∀ t, t ∈ b.1 → Uses t = []) → resolveAll fuel b = Ok b.
Proof.
  intros H. unfold resolveAll. apply forEach_id.
  intros i Hi. apply elem_of_seq in Hi as [_ Hi]. simpl in Hi.
  destruct (lookup_lt_is_Some_2 _ _ Hi) as [t Ht]. rewrite Ht.
  rewrite (H t); [done|]. by apply list_elem_of_lookup_2 in Ht.
Qed.

Lemma resolveAll_without_uses_witness :
  resolveAll 0 ([newTerminfo ["a"]; newTerminfo ["b"]], [])
  = Ok ([newTerminfo ["a"]; newTerminfo ["b"]], []).
Proof.
  apply resolveAll_without_uses. intros t Ht.
  apply elem_of_cons in Ht as [->|Ht]; [reflexivity|].
  apply list_elem_of_singleton in Ht as ->. reflexivity.
Defined.





Lemma forEach_no_panic {A S : Type} (P : S → Prop) (body : S → A → outcome S)
    (l : list A) (st : S) :
  P st →
  (∀ s a, a ∈ l → P s → body s a ≠ Panic ∧ ∀ s', body s a = Ok s' → P s') →
  forEach body st l ≠ Panic.
Proof.
  revert st. induction l as [|x l IH]; intros st HP Hb; [done|].
  simpl. destruct (Hb st x ltac:(by left) HP) as [Hnp Hok].
  destruct (body st x) as [s1| |]; simpl; [|done..].
  apply IH; [by apply Hok|]. intros s a Ha. apply Hb. by right.
Qed.

Lemma forEach_diverges {A S : Type} (P : S → Prop) (body : S → A → outcome S)
    (l : list A) (st : S) (a : A) :
  P st → a ∈ l →
  (∀ s x, x ∈ l → P s → body s x ≠ Panic ∧ ∀ s', body s x = Ok s' → P s') →
  (∀ s, P s → body s a = OutOfFuel) →
  forEach body st l = OutOfFuel.
Proof.
  revert st. induction l as [|x l IH]; intros st HP Ha Hb Hd.
  - by apply elem_of_nil in Ha.
  - simpl. destruct (Hb st x ltac:(by left) HP) as [Hnp Hok].
    destruct (body st x) as [s1| |] eqn:Ex; simpl; [|done..].
    apply elem_of_cons in Ha as [->|Ha].
    + rewrite (Hd st HP) in Ex. discriminate Ex.
    + apply IH; [by apply Hok|done| |done]. intros s y Hy. apply Hb. by right.
Qed.

Lemma resolveUses_no_panic (fuel : nat) (b : Batch) (i : nat) (use : string) :
  (i < length b.1)%nat → resolveUses fuel b i use ≠ Panic.
Proof.
  revert b use. induction fuel as [|fuel IH]; intros b use Hi; [done|].
  simpl. destruct (lookup_lt_is_Some_2 _ _ Hi) as [t0 Et0]. rewrite Et0.
  destruct (findTerminfo b.1 use) as [j|] eqn:Ef; [|done].
  destruct (findTerminfo_Some _ _ _ Ef) as (u0 & Eu0 & _). rewrite Eu0.
  destruct (forEach (λ (b1 : Batch) uu, resolveUses fuel b1 i uu) b (Uses u0))
    as [b1| |] eqn:El; simpl; [| |done].
  - assert (Hs : shape b1.1 = shape b.1).
    { apply forEach_resolved with (i := i) in El; [by destruct El|].
      intros ? ? ? _. apply resolveUses_resolved. }
    destruct (shape_lookup _ _ _ _ Hs Et0) as (t & -> & _).
    by destruct (shape_lookup _ _ _ _ Hs Eu0) as (u & -> & _).
  - exfalso. revert El.
    apply (forEach_no_panic (λ b1 : Batch, shape b1.1 = shape b.1)); [done|].
    intros b1 uu _ Hs. split.
    + apply IH. by rewrite (shape_length _ _ Hs).
    + intros b2 H2. apply resolveUses_resolved in H2 as (Hs2 & _). by rewrite Hs2.
Qed.

(** No cycle protection: a reference to a model that lists the same name
    among its own references is never resolved, whatever the fuel. *)
Theorem resolveUses_self_reference (fuel : nat) (b : Batch) (i j : nat)
    (use : string) (u : Terminfo) :
  (i < length b.1)%nat → findTerminfo b.1 use = Some j → b.1 !! j = Some u →
  use ∈ Uses u →
  resolveUses fuel b i use = OutOfFuel.
Proof.
  revert b u. induction fuel as [|fuel IH]; intros b u Hi Hf Hj Hu; [done|].
  simpl. destruct (lookup_lt_is_Some_2 _ _ Hi) as [t0 Et0]. rewrite Et0, Hf, Hj.
  rewrite (forEach_diverges (λ b1 : Batch, shape b1.1 = shape b.1)
             (λ (b1 : Batch) uu, resolveUses fuel b1 i uu) (Uses u) b use);
    [done|done|done| |].
  - intros b1 uu _ Hs. split.
    + apply resolveUses_no_panic. by rewrite (shape_length _ _ Hs).
    + intros b2 H2. apply resolveUses_resolved in H2 as (Hs2 & _). by rewrite Hs2.
  - intros b1 Hs. destruct (shape_lookup _ _ _ _ Hs Hj) as (u1 & Hu1 & _ & HU).
    apply (IH b1 u1); [by rewrite (shape_length _ _ Hs)| |done|by rewrite HU].
    by rewrite (findTerminfo_shape _ _ _ Hs).
Qed.

(** On [selfSource], whose entry uses itself, [Parse] does not return with
    fuel 5. *)
Lemma resolveUses_self_reference_witness :
  resolveUses 5 ([set_Uses ["a"] (newTerminfo ["a"])], []) 0 "a" = OutOfFuel
  ∧ Parse sampleCatalog 5 selfSource = OutOfFuel.
Proof.
  split.
  - apply (resolveUses_self_reference 5 ([set_Uses ["a"] (newTerminfo ["a"])], [])
             0 0 "a" (set_Uses ["a"] (newTerminfo ["a"])));
      [simpl; lia | reflexivity | reflexivity | by left].
  - vm_compute. reflexivity.
Defined.

(** ** More on the source parser *)

Section ParserMore.

Variable cat : Catalog.

Lemma onTi_names (f : Terminfo → Terminfo) (s s' : PState) :
  onTi f s = Ok s' → (∀ t, Names (f t) = Names t) →
  map Names (flush s') = map Names (flush s)
  ∧ map Names (flush (set_capName "" s')) = map Names (flush s).
Proof.
  intros H Hf. unfold onTi in H. destruct (ti s) as [t|] eqn:Et; [|done].
  injection H as <-. unfold flush. simpl. rewrite Et.
  rewrite !map_app. simpl. by rewrite Hf.
Qed.

Lemma addCap_names (typ : string) (s s' : PState) :
  addCap cat typ s = Ok s' → map Names (flush s') = map Names (flush s).
Proof.
  unfold addCap. intros Hadd. inv_bind Hadd as s1 Hb1. injection Hadd as <-.
  change (map Names (flush s1) = map Names (flush s)).
  repeat case_decide; [| | |done].
  - unfold addCapBool in Hb1.
    repeat case_match; (apply onTi_names in Hb1; [by destruct Hb1|done]).
  - unfold addCapNum in Hb1.
    destruct (numBase (buf s)) as [base value].
    destruct (Go.ParseUint value base) as [n err].
    inv_bind Hb1 as s2 Hb2. injection Hb1 as <-.
    repeat case_match; (apply onTi_names in Hb2; [by destruct Hb2|done]).
  - unfold addCapStr in Hb1. inv_bind Hb1 as s2 Hb2. injection Hb1 as <-.
    repeat (case_decide || case_match);
      (apply onTi_names in Hb2; [by destruct Hb2|done]).
Qed.

Lemma stepChar_names (s s' : PState) (c : ascii) (rest : string) (k : nat) :
  stepChar cat s c rest = Ok (s', k) → map Names (flush s') = map Names (flush s).
Proof.
  intros H. destruct (decide (c = ","%char)) as [->|Hc].
  - unfold stepChar in H. destruct (esc s).
    + rewrite decide_False, decide_False, decide_True in H by done.
      inv_bind H as s1 H1. injection H as <- <-.
      change (map Names (flush s1) = map Names (flush s)).
      case_decide; [by apply (addCap_names "bool")|]. by simplify_eq.
    + rewrite decide_True in H by done.
      inv_bind H as s1 H1. injection H as <- <-.
      change (map Names (flush s1) = map Names (flush s)).
      by apply (addCap_names "num").
    + rewrite decide_False, decide_False, decide_False, decide_True in H by done.
      inv_bind H as s1 H1. injection H as <- <-.
      change (map Names (flush s1) = map Names (flush s)).
      by apply (addCap_names "str").
    + by simplify_eq.
    + inv_bind H as [s1 k1] H1. injection H as <- <-.
      apply stepEsc_frame in H1 as (H1 & _).
      change (map Names (flush s1) = map Names (flush s)).
      by rewrite (sameModels_flush _ _ H1).
  - apply (stepChar_no_comma cat) in H; [|done]. by rewrite (sameModels_flush _ _ H).
Qed.

Lemma scanChars_names (l : string) (skip : nat) (s s' : PState) :
  scanChars cat skip s l = Ok s' → map Names (flush s') = map Names (flush s).
Proof.
  revert skip s. induction l as [|c l IH]; intros skip s H.
  - simpl in H. by simplify_eq.
  - simpl in H. destruct skip as [|skip]; [|by apply (IH skip s)].
    inv_bind H as [s1 k] H1. rewrite (IH k s1 H).
    by apply (stepChar_names s s1 c l k).
Qed.

Lemma lines_names (lines : list string) (s s' : PState) :
  forEach (parseLine cat) s lines = Ok s' →
  map Names (flush s')
  = map Names (flush s) ++ map headerNames (filter (λ l, lineKind l = Header) lines).
Proof.
  revert s. induction lines as [|line lines IH]; intros s H.
  - simpl in H. simplify_eq. by rewrite app_nil_r.
  - simpl in H. inv_bind H as s1 H1. rewrite (IH s1 H). rewrite filter_cons.
    rewrite parseLine_kind in H1. destruct (lineKind line) eqn:Ek.
    + rewrite decide_False by done. by simplify_eq.
    + rewrite decide_True by done. injection H1 as <-.
      unfold flush at 1. simpl. rewrite map_app. simpl. by rewrite <- app_assoc.
    + rewrite decide_False by done.
      by rewrite (scanChars_names (Go.TrimSpace line) 0 s s1 H1).
Qed.

(** When [Parse] returns, it returns one model per line that starts an
    entry, in the order of the lines, and the names of each model are the
    fields, separated by [|], of the text before the first comma of its
    line. *)
Theorem Parse_models_are_header_lines (fuel : nat) (src : string) (b : Batch) :
  Parse cat fuel src = Ok b →
  map Names b.1 = map headerNames (headerLines src)
  ∧ length b.1 = length (headerLines src).
Proof.
  intros H. unfold Parse in H. inv_bind H as s Hs.
  apply resolveAll_shape in H as [Hsh _]. simpl in Hsh.
  assert (HN : map Names b.1 = map headerNames (headerLines src)).
  { assert (H0 : map Names b.1 = map Names (flush s)).
    { unfold shape in Hsh. apply (f_equal (map fst)) in Hsh.
      by rewrite !map_map in Hsh. }
    rewrite H0. unfold scan in Hs. by rewrite (lines_names _ _ _ Hs). }
  split; [done|]. apply (f_equal length) in HN. by rewrite !length_map in HN.
Qed.

(** Lines that start with [#] and blank lines do not matter: the loop
    over the lines ends in the state it ends in without them. *)
Theorem ignored_lines_do_not_matter (lines : list string) (s : PState) :
  forEach (parseLine cat) s lines
  = forEach (parseLine cat) s (filter (λ l, lineKind l ≠ Ignored) lines).
Proof.
  revert s. induction lines as [|line lines IH]; intros s; [done|].
  rewrite filter_cons. destruct (decide (lineKind line ≠ Ignored)) as [Hk|Hk].
  - simpl. destruct (parseLine cat s line); simpl; [apply IH|done..].
  - apply dec_stable in Hk. simpl. rewrite parseLine_kind, Hk. simpl. apply IH.
Qed.

End ParserMore.

Lemma Parse_models_are_header_lines_witness :
  ∃ b, Parse sampleCatalog 3 chainSource = Ok b
       ∧ map Names b.1 = [["C"]; ["B"]; ["A"]].
Proof.
  destruct (Parse sampleCatalog 3 chainSource) as [b| |] eqn:E;
    try (vm_compute in E; discriminate).
  exists b. split; [reflexivity|].
  rewrite (proj1 (Parse_models_are_header_lines sampleCatalog 3 chainSource b E)).
  vm_compute. reflexivity.
Defined.

(** ** What one token does *)

Lemma str_app_assoc (a b c : string) : (a +:+ b) +:+ c = a +:+ (b +:+ c).
Proof.
  induction a as [|x a IH]; [done|].
  change ((String x a +:+ b) +:+ c) with (String x ((a +:+ b) +:+ c)).
  change (String x a +:+ (b +:+ c)) with (String x (a +:+ (b +:+ c))).
  by rewrite IH.
Qed.

Lemma str_app_nil_r (a : string) : a +:+ "" = a.
Proof.
  induction a as [|x a IH]; [done|].
  change (String x a +:+ "") with (String x (a +:+ "")). by rewrite IH.
Qed.

Lemma str_app_cons (a : string) (x : ascii) (b : string) :
  (a +:+ String x "") +:+ b = a +:+ String x b.
Proof. by rewrite str_app_assoc. Qed.

(** Reduces the projections of a state built by the setters. *)
Ltac st_norm :=
  cbn [tis ti capName esc buf extBoolIdx extNumIdx extStringIdx extBoolNameCaps
       extNumNameCaps extStringNameCaps logs set_tis set_ti set_capName set_esc
       set_buf WriteByte logf].

Section Tokens.

Variable cat : Catalog.

Lemma scan_ground_name (n rest : string) (s : PState) :
  esc s = GROUND → plain nameStops n = true →
  scanChars cat 0 s (n +:+ rest) = scanChars cat 0 (set_buf (buf s +:+ n) s) rest.
Proof.
  revert s. induction n as [|c n IH]; intros s E Hp.
  - change ("" +:+ rest) with rest. rewrite str_app_nil_r. by destruct s.
  - simpl in Hp. apply andb_true_iff in Hp as [Hc Hp].
    apply negb_true_iff, bool_decide_eq_false in Hc.
    change (String c n +:+ rest) with (String c (n +:+ rest)).
    cbn [scanChars]. unfold stepChar. rewrite E.
    rewrite !decide_False by (intros ->; apply Hc; set_solver).
    cbn [mbind outcome_bind]. rewrite IH by done.
    unfold WriteByte. cbn [buf set_buf]. by rewrite str_app_cons.
Qed.

Lemma scan_none_value (v rest : string) (s : PState) :
  esc s = NONE → plain valueStops v = true →
  scanChars cat 0 s (v +:+ rest) = scanChars cat 0 (set_buf (buf s +:+ v) s) rest.
Proof.
  revert s. induction v as [|c v IH]; intros s E Hp.
  - change ("" +:+ rest) with rest. rewrite str_app_nil_r. by destruct s.
  - simpl in Hp. apply andb_true_iff in Hp as [Hc Hp].
    apply negb_true_iff, bool_decide_eq_false in Hc.
    change (String c v +:+ rest) with (String c (v +:+ rest)).
    cbn [scanChars]. unfold stepChar. rewrite E.
    rewrite !decide_False by (intros ->; apply Hc; set_solver).
    cbn [mbind outcome_bind]. rewrite IH by done.
    unfold WriteByte. cbn [buf set_buf]. by rewrite str_app_cons.
Qed.

Lemma scan_int_value (v rest : string) (s : PState) :
  esc s = INT → occurs "," v = false →
  scanChars cat 0 s (v +:+ rest) = scanChars cat 0 (set_buf (buf s +:+ v) s) rest.
Proof.
  revert s. induction v as [|c v IH]; intros s E Hp.
  - change ("" +:+ rest) with rest. rewrite str_app_nil_r. by destruct s.
  - simpl in Hp. apply orb_false_iff in Hp as [Hc Hp].
    apply bool_decide_eq_false in Hc.
    change (String c v +:+ rest) with (String c (v +:+ rest)).
    cbn [scanChars]. unfold stepChar. rewrite E.
    rewrite decide_False by done.
    cbn [mbind outcome_bind]. rewrite IH by done.
    unfold WriteByte. cbn [buf set_buf]. by rewrite str_app_cons.
Qed.

(** A boolean token: in [GROUND] with an empty accumulator, a standard
    boolean name without [=], [#], comma or space, followed by a comma,
    sets the capability of its index to true and leaves the machine as it
    was. *)
Theorem bool_token_sets_capability (s : PState) (t : Terminfo) (name rest : string)
    (cap : Z) :
  esc s = GROUND → buf s = "" → capName s = "" → ti s = Some t →
  plain nameStops name = true → boolNameCaps cat !! name = Some cap →
  scanChars cat 0 s (name +:+ String "," rest)
  = scanChars cat 0 (set_ti (Some (set_Bools (<[cap := true]> (Bools t)) t)) s) rest.
Proof.
  intros E Hb Hn Ht Hp Hc. destruct s; simpl in *; subst.
  rewrite scan_ground_name by done. st_norm.
  change ("" +:+ name) with name.
  cbn [scanChars]. unfold stepChar. st_norm.
  rewrite decide_False, decide_False, decide_True by done.
  rewrite decide_True by done.
  unfold addCap. rewrite decide_True by done.
  unfold addCapBool. st_norm. rewrite Hc. reflexivity.
Qed.

(** A numeric token: [name#value,] with a standard numeric name stores
    the value [ParseUint] returns for the text (base 16 after [0x], base 10
    otherwise) at the index of the name. *)
Theorem num_token_stores_value (s : PState) (t : Terminfo) (name v rest : string)
    (cap n : Z) :
  esc s = GROUND → buf s = "" → ti s = Some t →
  plain nameStops name = true → occurs "," v = false →
  numNameCaps cat !! name = Some cap →
  Go.ParseUint (numBase v).2 (numBase v).1 = (n, None) →
  scanChars cat 0 s (name +:+ String "#" (v +:+ String "," rest))
  = scanChars cat 0 (set_ti (Some (set_Nums (<[cap := n]> (Nums t)) t))
                            (set_capName "" s)) rest.
Proof.
  intros E Hb Ht Hp Hv Hc Hn. destruct s; simpl in *; subst.
  rewrite scan_ground_name by done. st_norm.
  change ("" +:+ name) with name.
  cbn [scanChars]. unfold stepChar at 1. st_norm.
  rewrite decide_False, decide_True by done. cbn [mbind outcome_bind].
  rewrite scan_int_value by done. st_norm.
  change ("" +:+ v) with v.
  cbn [scanChars]. unfold stepChar. st_norm.
  rewrite decide_True by done.
  unfold addCap. rewrite decide_False by done. rewrite decide_True by done.
  unfold addCapNum. st_norm.
  destruct (numBase v) as [base value]. simpl in Hn. rewrite Hn.
  st_norm. rewrite Hc. reflexivity.
Qed.

(** A string token: [name=value,] with a standard string name other than
    [use] and a value without backslash, [^], space or comma stores the
    value as it is written at the index of the name. *)
Theorem string_token_stores_value (s : PState) (t : Terminfo) (name v rest : string)
    (cap : Z) :
  esc s = GROUND → buf s = "" → ti s = Some t →
  plain nameStops name = true → plain valueStops v = true →
  name ≠ "use" → stringNameCaps cat !! name = Some cap →
  scanChars cat 0 s (name +:+ String "=" (v +:+ String "," rest))
  = scanChars cat 0 (set_ti (Some (set_Strings (<[cap := v]> (Strings t)) t))
                            (set_capName "" s)) rest.
Proof.
  intros E Hb Ht Hp Hv Hu Hc. destruct s; simpl in *; subst.
  rewrite scan_ground_name by done. st_norm.
  change ("" +:+ name) with name.
  cbn [scanChars]. unfold stepChar at 1. st_norm.
  rewrite decide_True by done. cbn [mbind outcome_bind].
  rewrite scan_none_value by done. st_norm.
  change ("" +:+ v) with v.
  cbn [scanChars]. unfold stepChar. st_norm.
  rewrite decide_False, decide_False, decide_False, decide_True by done.
  unfold addCap. rewrite decide_False by done. rewrite decide_False by done.
  rewrite decide_True by done.
  unfold addCapStr. st_norm. rewrite decide_False by done.
  rewrite Hc. reflexivity.
Qed.

(** A use token: [use=value,] appends the value to [Uses] and stores no
    capability, whatever the catalog holds under the name [use]. *)
Theorem use_token_appends_reference (s : PState) (t : Terminfo) (v rest : string) :
  esc s = GROUND → buf s = "" → ti s = Some t →
  plain valueStops v = true →
  scanChars cat 0 s ("use=" +:+ v +:+ String "," rest)
  = scanChars cat 0 (set_ti (Some (set_Uses (Uses t ++ [v]) t)) (set_capName "" s)) rest.
Proof.
  intros E Hb Ht Hv. destruct s; cbn [esc buf ti] in *; subst.
  change ("use=" +:+ v +:+ String "," rest)
    with ("use" +:+ String "=" (v +:+ String "," rest)).
  rewrite scan_ground_name by done. st_norm.
  change ("" +:+ "use") with "use".
  cbn [scanChars]. unfold stepChar at 1. st_norm.
  rewrite decide_True by done. cbn [mbind outcome_bind].
  rewrite scan_none_value by done. st_norm.
  change ("" +:+ v) with v.
  cbn [scanChars]. unfold stepChar. st_norm.
  rewrite decide_False, decide_False, decide_False, decide_True by done.
  unfold addCap. rewrite decide_False by done. rewrite decide_False by done.
  rewrite decide_True by done.
  unfold addCapStr. st_norm. rewrite decide_True by done.
  reflexivity.
Qed.

End Tokens.

Lemma bool_token_sets_capability_witness :
  scanChars sampleCatalog 0 entryState "am,"
  = Ok (set_ti (Some (set_Bools {[ 1 := true ]} (newTerminfo ["xterm"]))) entryState).
Proof.
  exact (bool_token_sets_capability sampleCatalog entryState (newTerminfo ["xterm"])
           "am" "" 1 eq_refl eq_refl eq_refl eq_refl eq_refl eq_refl).
Defined.

Lemma num_token_stores_value_witness :
  scanChars sampleCatalog 0 entryState "cols#0x50,"
  = Ok (set_ti (Some (set_Nums {[ 0 := 80 ]} (newTerminfo ["xterm"]))) entryState).
Proof.
  exact (num_token_stores_value sampleCatalog entryState (newTerminfo ["xterm"])
           "cols" "0x50" "" 0 80 eq_refl eq_refl eq_refl eq_refl eq_refl eq_refl eq_refl).
Defined.

Lemma string_token_stores_value_witness :
  scanChars sampleCatalog 0 entryState "bold=[1m,"
  = Ok (set_ti (Some (set_Strings {[ 27 := "[1m" ]} (newTerminfo ["xterm"]))) entryState).
Proof.
  exact (string_token_stores_value sampleCatalog entryState (newTerminfo ["xterm"])
           "bold" "[1m" "" 27 eq_refl eq_refl eq_refl eq_refl eq_refl
           ltac:(discriminate) eq_refl).
Defined.

Lemma use_token_appends_reference_witness :
  scanChars sampleCatalog 0 entryState "use=vt100,"
  = Ok (set_ti (Some (set_Uses ["vt100"] (newTerminfo ["xterm"]))) entryState).
Proof.
  exact (use_token_appends_reference sampleCatalog entryState (newTerminfo ["xterm"])
           "vt100" "" eq_refl eq_refl eq_refl eq_refl).
Defined.

(** ** More on the reader of the compiled format *)

Section ReaderMore.

Import Reader.

Lemma byteZ_zero (c : ascii) : Go.byteZ c = 0 ↔ c = "000"%char.
Proof.
  unfold Go.byteZ. split.
  - intros H. rewrite <- (ascii_N_embedding c).
    replace (N_of_ascii c) with 0%N by lia. reflexivity.
  - by intros ->.
Qed.

(** The scan for the end of a string: it stops at the first NUL of the
    list; with no NUL in a list that is not empty it reports a bad string;
    on the empty list (an offset at the end of the table) it panics. *)
Lemma scanNul_spec (l : list ascii) :
  match scanNul l with
  | Ok (Some n) =>
      l !! n = Some "000"%char ∧ ∀ k c, (k < n)%nat → l !! k = Some c → c ≠ "000"%char
  | Ok None => l ≠ [] ∧ ∀ c, c ∈ l → c ≠ "000"%char
  | Panic => l = []
  | OutOfFuel => False
  end.
Proof.
  induction l as [|c l IH]; [done|].
  simpl. case_decide as Hc.
  - apply byteZ_zero in Hc as ->. split; [done|]. intros k c Hk. lia.
  - assert (Hc' : c ≠ "000"%char) by (intros ->; by apply Hc).
    destruct l as [|d l]; [|clear Hc].
    + split; [done|]. by intros x ->%list_elem_of_singleton.
    + destruct (scanNul (d :: l)) as [[n|]| |]; simpl.
      * destruct IH as [Hn Hlt]. split; [done|].
        intros [|k] x Hk Hx; simpl in Hx; [by simplify_eq|].
        apply (Hlt k); [lia|done].
      * destruct IH as [_ Hall]. split; [done|].
        intros x [->|Hx]%elem_of_cons; [done|by apply Hall].
      * done.
      * done.
Qed.




Lemma forEach_names {A : Type} (body : Terminfo → A → outcome Terminfo)
    (l : list A) (t t' : Terminfo) :
  (∀ t1 a t2, body t1 a = Ok t2 → Names t2 = Names t1) →
  forEach body t l = Ok t' → Names t' = Names t.
Proof.
  intros Hb H.
  apply (forEach_inv (λ t1, Names t1 = Names t) body l t t'); [|done|done].
  intros t1 a t2 _ H1 H2. by rewrite (Hb t1 a t2 H2).
Qed.

Lemma stringsFrom_names (sbuf table : list ascii) (js : list nat) (t t' : Terminfo)
    (e : option error) :
  stringsFrom sbuf table js t = Ok (t', e) → Names t' = Names t.
Proof.
  revert t. induction js as [|j js IH]; intros t H.
  - simpl in H. by simplify_eq.
  - simpl in H. inv_bind H as off Ho. case_bool_decide.
    + inv_bind H as o Hs. destruct o as [n|]; [|by simplify_eq].
      by rewrite (IH _ H).
    + by apply IH.
Qed.

Lemma readBools_frame (r r' : reader) :
  readBools r = Ok r' →
  buf r' = buf r ∧ h r' = h r ∧ Names (ti r') = Names (ti r).
Proof.
  unfold readBools. intros H. inv_bind H as [r1 bs] Hs.
  apply sliceOff_Ok in Hs as [-> Hs]. injection H as <-. simpl.
  split; [done|]. split; [done|]. apply boolsFrom_others.
Qed.

Lemma readNumbers_frame (r r' : reader) :
  readNumbers r = Ok r' →
  buf r' = buf r ∧ h r' = h r ∧ Names (ti r') = Names (ti r).
Proof.
  unfold readNumbers. intros H. inv_bind H as [r1 nbuf] Hs.
  apply sliceOff_Ok in Hs as [-> Hs]. inv_bind H as t Hl. injection H as <-. simpl.
  split; [done|]. split; [done|].
  apply forEach_names in Hl; [done|].
  intros t1 j t2 Hb. inv_bind Hb as n Hn. injection Hb as <-. by case_bool_decide.
Qed.

Lemma readStrings_frame (r r' : reader) (e : option error) :
  readStrings r = Ok (r', e) →
  buf r' = buf r ∧ h r' = h r ∧ Names (ti r') = Names (ti r).
Proof.
  unfold readStrings. intros H. inv_bind H as [r1 sbuf] Hs.
  apply sliceOff_Ok in Hs as [-> Hs]. inv_bind H as table Ht.
  inv_bind H as [t e1] Hl. injection H as <- <-. simpl.
  split; [done|]. split; [done|]. by apply stringsFrom_names in Hl.
Qed.

(** A run of [read] that returns no error leaves a model with at least one
    name: the names are the fields, separated by [|], of the bytes of the
    names section, and [strings.Split] never returns an empty slice. *)
Theorem read_names_not_empty (r r' : reader) (f : list ascii) :
  read r f = Ok (r', None) →
  Names (ti r') ≠ []
  ∧ 0 ≤ lenNames (h r')
  ∧ Names (ti r')
    = Go.Split "|" (string_of_list_ascii
                      (take (Z.to_nat (lenNames (h r'))) (drop 12 (buf r')))).
Proof.
  unfold read. intros H. inv_bind H as [r0 [e|]] Hh; [done|].
  inv_bind H as r1 Hn. inv_bind H as r2 Hb. inv_bind H as r3 Hm.
  apply readStrings_frame in H as (B3 & H3 & N3).
  apply readNumbers_frame in Hm as (B2 & H2 & N2).
  apply readBools_frame in Hb as (B1 & H1 & N1).
  rewrite N3, N2, N1, B3, B2, B1, H3, H2, H1.
  unfold readNames, len in Hn. inv_bind Hn as s Hs. injection Hn as <-.
  unfold slice in Hs. cbn [buf pos ppos ti h Names] in *.
  assert (R : -32768 ≤ lenNames (h r0) ≤ 32767).
  { unfold readHeader in Hh. case_bool_decide; [done|].
    inv_bind Hh as a0 W0. inv_bind Hh as a1 W1. inv_bind Hh as a2 W2.
    inv_bind Hh as a3 W3. inv_bind Hh as a4 W4. inv_bind Hh as a5 W5.
    apply littleEndian_word, word_range in W1.
    cbn [h] in Hh. case_bool_decide; [done|]. destruct (badMagic _); [done|].
    by injection Hh as <-. }
  apply sliceOf_Ok in Hs as (_ & S1 & _ & -> & _).
  destruct (wrap16_cases (12 + lenNames (h r0)) ltac:(lia)) as [[? E]|[[? E]|[? E]]];
    rewrite E in *; try lia.
  split; [apply Split_nonempty|]. split; [lia|].
  do 3 f_equal. lia.
Qed.

Lemma read_names_not_empty_witness :
  ∃ r', read New sampleFile = Ok (r', None) ∧ Names (ti r') ≠ [].
Proof.
  destruct (read New sampleFile) as [[r' [e|]]| |] eqn:E;
    try (vm_compute in E; discriminate).
  exists r'. split; [reflexivity|].
  exact (proj1 (read_names_not_empty New r' sampleFile E)).
Defined.

Lemma strLoop_present (sbuf table : list ascii) (c a : nat) (t t' : Terminfo)
    (err : option error) :
  stringsFrom sbuf table (map (λ k, 2 * k)%nat (seq a c)) t = Ok (t', err) →
  (∀ k, (k < a)%nat → StringCaps t' !! Z.of_nat k = StringCaps t !! Z.of_nat k)
  ∧ match err with
    | None =>
        ∀ k off, (a ≤ k < a + c)%nat → Layout.word sbuf (2 * k) = Some off → -1 < off →
          ∃ n, scanNul (drop (Z.to_nat off) table) = Ok (Some n)
               ∧ StringCaps t' !! Z.of_nat k
                 = Some (string_of_list_ascii (take n (drop (Z.to_nat off) table)))
    | Some e =>
        e = ErrBadString
        ∧ ∃ k off, Layout.word sbuf (2 * k) = Some off ∧ -1 < off
                   ∧ scanNul (drop (Z.to_nat off) table) = Ok None
    end.
Proof.
  revert a t. induction c as [|c IH]; intros a t H.
  - simpl in H. simplify_eq. split; [done|]. intros k off Hk. lia.
  - cbn [seq map stringsFrom] in H. inv_bind H as off Ha.
    apply littleEndian_word in Ha.
    case_bool_decide as Hoff.
    + inv_bind H as o Ho. destruct o as [n|].
      * apply IH in H as [Hlt Hm].
        assert (Hat : ∀ k, (k < S a)%nat → k ≠ a →
                  StringCaps t' !! Z.of_nat k = StringCaps t !! Z.of_nat k).
        { intros k Hk Hne. rewrite (Hlt k Hk). unfold setString. cbn [StringCaps].
          rewrite half_double. apply lookup_insert_ne. lia. }
        split; [intros k Hk; apply Hat; lia|].
        destruct err as [e|]; [done|].
        intros k off' Hk Hw Hoff'.
        destruct (decide (k = a)) as [->|Hne].
        -- rewrite Ha in Hw. injection Hw as <-. exists n. split; [done|].
           rewrite (Hlt a ltac:(lia)). unfold setString. cbn [StringCaps].
           rewrite half_double. apply lookup_insert_eq.
        -- apply Hm; [lia|done|done].
      * simplify_eq. split; [done|]. split; [done|]. by exists a, off.
    + apply IH in H as [Hlt Hm]. split; [intros k Hk; apply Hlt; lia|].
      destruct err as [e|]; [done|].
      intros k off' Hk Hw Hoff'.
      destruct (decide (k = a)) as [->|Hne]; [|apply Hm; [lia|done|done]].
      rewrite Ha in Hw. simplify_eq. lia.
Qed.

(** Every string that a run of [readStrings] without error stores is read
    off the table: for each offset slot whose word [off] is [> -1], the
    entry at the index of the slot is the bytes of the table from [off] up
    to, and not including, the first NUL after it. *)
Theorem readStrings_values (r r' : reader) :
  readStrings r = Ok (r', None) →
  ∃ sbuf table,
    sliceOf (buf r) (pos r) (pos r') = Ok sbuf
    ∧ sliceOf (buf r) (pos r') (wrap16 (pos r' + lenTable (h r))) = Ok table
    ∧ pos r' = wrap16 (pos r + lenStrings (h r))
    ∧ ∀ k off, Layout.word sbuf (2 * k) = Some off → -1 < off →
        ∃ v, StringCaps (ti r') !! Z.of_nat k = Some (string_of_list_ascii v)
             ∧ ("000"%char ∉ v)
             ∧ take (S (length v)) (drop (Z.to_nat off) table) = v ++ ["000"%char].
Proof.
  unfold readStrings. intros H. inv_bind H as [r1 sbuf] Hs.
  apply sliceOff_Ok in Hs as [-> Hs]. cbn [pos ppos buf ti h] in H.
  inv_bind H as table Ht. inv_bind H as [t e1] Hl. injection H as <- ->.
  cbn [pos ppos buf ti h]. exists sbuf, table.
  split; [done|]. split; [done|]. split; [done|].
  unfold evens in Hl. apply strLoop_present in Hl as [_ Hm].
  intros k off Hw Hoff.
  pose proof (word_lt _ _ _ Hw) as Hk.
  destruct (Hm k off) as (n & Hn & Hv); [|done|done|].
  { pose proof (Nat.div2_odd (S (length sbuf))) as Hd.
    destruct (Nat.odd (S (length sbuf))); cbn [Nat.b2n] in Hd; lia. }
  pose proof (scanNul_spec (drop (Z.to_nat off) table)) as Hsp.
  rewrite Hn in Hsp. destruct Hsp as [Hnul Hbefore].
  exists (take n (drop (Z.to_nat off) table)).
  apply lookup_lt_Some in Hnul as Hlen.
  split; [done|]. split.
  - intros (i & Hi & Hin)%elem_of_take. by apply (Hbefore i _ Hin Hi).
  - rewrite length_take, Nat.min_l by lia. by apply take_S_r.
Qed.

Lemma readStrings_values_witness :
  ∃ r', readStrings sampleStringsReader = Ok (r', None)
        ∧ ∃ v, StringCaps (ti r') !! 0 = Some (string_of_list_ascii v)
               ∧ ("000"%char ∉ v).
Proof.
  destruct (readStrings sampleStringsReader) as [[r' [e|]]| |] eqn:E;
    try (vm_compute in E; discriminate).
  destruct (readStrings_values sampleStringsReader r' E)
    as (sbuf & table & Hs & _ & Hp & Hv).
  exists r'. split; [reflexivity|].
  rewrite Hp in Hs. vm_compute in Hs. injection Hs as <-.
  destruct (Hv 0%nat 0 eq_refl ltac:(lia)) as (v & Hv1 & Hv2 & _).
  exists v. split; [exact Hv1|exact Hv2].
Defined.

Lemma readStrings_error (r r' : reader) (e : error) :
  readStrings r = Ok (r', Some e) → e = ErrBadString.
Proof.
  unfold readStrings. intros H. inv_bind H as [r1 sbuf] Hs.
  inv_bind H as table Ht. inv_bind H as [t e1] Hl. injection H as <- ->.
  unfold evens in Hl. by apply strLoop_present in Hl as [_ [-> _]].
Qed.

(** The only error of [readStrings] is [ErrBadString], and it is returned
    only for a string without an end: some offset slot holds a word
    [off > -1] from which the table, not empty there, has no NUL. *)
Theorem readStrings_bad_string (r r' : reader) (e : error) :
  readStrings r = Ok (r', Some e) →
  e = ErrBadString
  ∧ ∃ sbuf table k off,
      sliceOf (buf r) (pos r) (pos r') = Ok sbuf
      ∧ sliceOf (buf r) (pos r') (wrap16 (pos r' + lenTable (h r))) = Ok table
      ∧ Layout.word sbuf (2 * k) = Some off ∧ -1 < off
      ∧ drop (Z.to_nat off) table ≠ []
      ∧ ("000"%char ∉ drop (Z.to_nat off) table).
Proof.
  unfold readStrings. intros H. inv_bind H as [r1 sbuf] Hs.
  apply sliceOff_Ok in Hs as [-> Hs]. cbn [pos ppos buf ti h] in H.
  inv_bind H as table Ht. inv_bind H as [t e1] Hl. injection H as <- ->.
  cbn [pos ppos buf ti h].
  unfold evens in Hl. apply strLoop_present in Hl as [_ (-> & k & off & Hw & Hoff & Hn)].
  split; [done|]. exists sbuf, table, k, off.
  pose proof (scanNul_spec (drop (Z.to_nat off) table)) as Hsp.
  rewrite Hn in Hsp. destruct Hsp as [Hne Hall].
  repeat (split; [done|]). intros Hin. by apply (Hall _ Hin).
Qed.

Lemma readStrings_bad_string_witness :
  ∃ r', read New openStringFile = Ok (r', Some ErrBadString).
Proof.
  destruct (read New openStringFile) as [[r' [e|]]| |] eqn:E;
    try (vm_compute in E; discriminate).
  exists r'. f_equal. f_equal. f_equal.
  unfold read in E. inv_bind E as [r0 [e0|]] Hh; [vm_compute in Hh; discriminate|].
  inv_bind E as r1 Hn. inv_bind E as r2 Hb. inv_bind E as r3 Hm.
  exact (proj1 (readStrings_bad_string r3 r' e E)).
Defined.

Lemma readHeader_prefix (r : reader) (f : list ascii) (n : nat) :
  (6 ≤ n)%nat → (length (buf r) ≤ n ≤ length f)%nat →
  readHeader r f = readHeader r (take n f).
Proof.
  intros H6 Hn. unfold readHeader. rewrite (length_take f n).
  rewrite (bool_decide_eq_false_2 (length f < 6)%nat) by lia.
  rewrite (bool_decide_eq_false_2 (n `min` length f < 6)%nat) by lia.
  rewrite (bool_decide_eq_false_2 (length f < length (buf r))%nat) by lia.
  rewrite (bool_decide_eq_false_2 (n `min` length f < length (buf r))%nat) by lia.
  rewrite take_take, Nat.min_l by lia. done.
Qed.

(** The buffer of a reader never grows: [readHeader] replaces it by one
    of the size of the file when the file is smaller, and [free] hands the
    reader back with that buffer.  So a reader that has read a file of [s]
    bytes, [6 <= s], reads of any later file only its first [s] bytes. *)
Theorem pooled_reader_reads_prefix (r r1 : reader) (e : option error)
    (f1 : list ascii) :
  read r f1 = Ok (r1, e) → (6 ≤ length f1)%nat →
  length (buf (free r1)) = (length f1 `min` length (buf r))%nat
  ∧ ∀ f2, (length f1 ≤ length f2)%nat →
      read (free r1) f2 = read (free r1) (take (length f1) f2).
Proof.
  intros H Hs.
  assert (Hb : buf r1 = take (length f1 `min` length (buf r)) f1).
  { unfold read in H. inv_bind H as [r0 e0] Hh.
    assert (Hb0 : buf r0 = take (length f1 `min` length (buf r)) f1).
    { unfold readHeader in Hh. case_bool_decide; [lia|].
      assert (Hn : (if bool_decide (length f1 < length (buf r))%nat
                    then length f1 else length (buf r))
                   = (length f1 `min` length (buf r))%nat)
        by (clear; case_bool_decide; lia).
      rewrite Hn in Hh. clear Hn.
      inv_bind Hh as a0 W0. inv_bind Hh as a1 W1. inv_bind Hh as a2 W2.
      inv_bind Hh as a3 W3. inv_bind Hh as a4 W4. inv_bind Hh as a5 W5.
      cbn [h] in Hh. case_bool_decide; [by injection Hh as <- _|].
      destruct (badMagic _); by injection Hh as <- _. }
    destruct e0 as [e0|]; [by injection H as <- _|].
    inv_bind H as r2 Hn. inv_bind H as r3 Hbo. inv_bind H as r4 Hm.
    apply readStrings_frame in H as (-> & _).
    apply readNumbers_frame in Hm as (-> & _).
    apply readBools_frame in Hbo as (-> & _).
    unfold readNames in Hn. inv_bind Hn as s Hsl. by injection Hn as <-. }
  assert (Hl : length (buf (free r1)) = (length f1 `min` length (buf r))%nat).
  { cbn [free buf]. rewrite Hb, length_take. lia. }
  split; [done|]. intros f2 Hle.
  unfold read. rewrite (readHeader_prefix (free r1) f2 (length f1)); [done|lia|lia].
Qed.

Lemma pooled_reader_reads_prefix_witness :
  ∃ r1, read New sampleFile = Ok (r1, None) ∧ length (buf (free r1)) = 27%nat.
Proof.
  destruct (read New sampleFile) as [[r1 [e|]]| |] eqn:E;
    try (vm_compute in E; discriminate).
  exists r1. split; [reflexivity|].
  exact (proj1 (pooled_reader_reads_prefix New r1 None sampleFile E
                  ltac:(vm_compute; lia))).
Defined.

(** Unless it reports a small file, a run of [read] that returns has
    read at least the twelve bytes of a header, and it reports a bad magic
    number exactly when the first word of the file is not [0x11A]. *)
Theorem read_checks_magic (r r' : reader) (e : option error) (f : list ascii) :
  read r f = Ok (r', e) → e ≠ Some ErrSmallFile →
  (12 ≤ length f)%nat
  ∧ ∃ m, Layout.field f 0 = Some m ∧ (m = 282 ↔ e ≠ Some ErrBadMagic).
Proof.
  unfold read. intros H He. inv_bind H as [r0 e0] Hh.
  unfold readHeader in Hh. case_bool_decide; [by simplify_eq|].
  set (b := take _ f) in Hh.
  inv_bind Hh as a0 W0. inv_bind Hh as a1 W1. inv_bind Hh as a2 W2.
  inv_bind Hh as a3 W3. inv_bind Hh as a4 W4. inv_bind Hh as a5 W5.
  apply littleEndian_word in W0, W5.
  pose proof (word_lt _ _ _ W5) as L5.
  assert (Lb : (length b ≤ length f)%nat) by (subst b; rewrite length_take; lia).
  assert (F0 : Layout.field f 0 = Some a0) by (subst b; by apply word_take_Some in W0).
  clearbody b.
  cbn [h] in Hh. case_bool_decide; [by simplify_eq|].
  split; [lia|]. exists a0. split; [done|].
  unfold badMagic in Hh. cbn [h0] in Hh.
  case_bool_decide as Hm; cbn [negb] in Hh.
  - injection Hh as <- <-. split; [|done]. intros _.
    inv_bind H as r2 Hn. inv_bind H as r3 Hbo. inv_bind H as r4 Hmm.
    destruct e as [e|]; [|done].
    apply readStrings_error in H as ->. done.
  - injection Hh as <- <-. injection H as <- <-. split; [done|]. by intros [].
Qed.

Lemma read_checks_magic_witness :
  ∃ r', read New sampleFile = Ok (r', None) ∧ Layout.field sampleFile 0 = Some 282.
Proof.
  destruct (read New sampleFile) as [[r' [e|]]| |] eqn:E;
    try (vm_compute in E; discriminate).
  exists r'. split; [reflexivity|].
  destruct (read_checks_magic New r' None sampleFile E ltac:(done)) as (_ & m & Hm & Hi).
  rewrite Hm. f_equal. by apply Hi.
Defined.

End ReaderMore.
